(** * grafana-rrd-server: the archive-access core of [rrdserver.go]

    A shallow embedding of the namespace index ([SearchCache]), the
    directory view ([ls]), [search], the resilient daemon fetch
    ([fetchRRDData]) and the query planner ([query]), with the properties
    the specification states about them.

    Conventions.
    - A Go [string] is a sequence of bytes: [gostring := list ascii].
    - Go [int], [int64] and [time.Duration] are [Z]; where the program can
      overflow, the wrap-around is written out ([wrap64]).
    - [time.Time] is the number of nanoseconds since the Unix epoch, in [Z].
    - [float64] is Rocq's primitive binary64 [float].
    - Calls into the archive libraries, the daemon client, the file system
      and the regular-expression and glob packages are fields of the class
      [Externals]; every theorem holds for all of their behaviours. *)

From Stdlib Require Import ZArith List String Ascii Floats Uint63 Lia.
From stdpp Require Import base gmap sets list strings.

Open Scope Z_scope.

(* [set_solver] clears hypotheses it has already used up. *)
Set Warnings "-clear-no-such-hyp".

Abbreviation gostring := (list ascii).

(** Go string literals. *)
Definition str (s : string) : gostring := list_ascii_of_string s.

(** ** The functions of Go's [strings] package the program uses *)
Module GoStrings.

(** [strings.HasPrefix(s, p)] *)
Fixpoint HasPrefix (s p : gostring) {struct p} : bool :=
  match p, s with
  | [], _ => true
  | _ :: _, [] => false
  | b :: p', a :: s' => Ascii.eqb a b && HasPrefix s' p'
  end.

(** [strings.TrimPrefix(s, p)] *)
Definition TrimPrefix (s p : gostring) : gostring :=
  if HasPrefix s p then drop (length p) s else s.

(** [strings.HasSuffix(s, p)] : [len(s) >= len(p) && s[len(s)-len(p):] == p] *)
Definition HasSuffix (s p : gostring) : bool :=
  (length p <=? length s)%nat
  && bool_decide (drop (length s - length p)%nat s = p).

(** [strings.TrimSuffix(s, p)] *)
Definition TrimSuffix (s p : gostring) : gostring :=
  if HasSuffix s p then take (length s - length p)%nat s else s.

(** [strings.Contains(s, sub)] *)
Fixpoint Contains (s sub : gostring) : bool :=
  HasPrefix s sub
  || match s with
     | [] => false
     | _ :: t => Contains t sub
     end.

(** [strings.Index(s, sub)] : first position of [sub], or -1 *)
Fixpoint Index (s sub : gostring) : Z :=
  if HasPrefix s sub then 0
  else match s with
       | [] => -1
       | _ :: t => let r := Index t sub in if r <? 0 then -1 else 1 + r
       end.

(** [strings.LastIndex(s, sub)] : last position of [sub], or -1 *)
Fixpoint LastIndex (s sub : gostring) : Z :=
  match s with
  | [] => if HasPrefix [] sub then 0 else -1
  | _ :: t =>
      let r := LastIndex t sub in
      if 0 <=? r then 1 + r
      else if HasPrefix s sub then 0 else -1
  end.

(** [strings.SplitN(s, sep, 2)] for a non-empty [sep] *)
Definition SplitN2 (s sep : gostring) : list gostring :=
  let i := Index s sep in
  if i <? 0 then [s]
  else [take (Z.to_nat i) s; drop (Z.to_nat i + length sep)%nat s].

(** [strings.Replace(s, old, new, n)] for a non-empty [old]: the first [n]
    non-overlapping occurrences, all of them when [n < 0].  [skip] counts
    the bytes of an occurrence that was just replaced and are still to be
    passed over.  (With an empty [old] Go inserts [new] around every rune;
    the program only does that with an empty [new], which leaves [s] as it
    is.) *)
Fixpoint Replace_from (skip : nat) (s old new : gostring) (n : Z) : gostring :=
  match s with
  | [] => []
  | c :: t =>
      match skip with
      | S k => Replace_from k t old new n
      | O =>
          if negb (n =? 0) && HasPrefix s old
          then new ++ Replace_from (length old - 1)%nat t old new (n - 1)
          else c :: Replace_from O t old new n
      end
  end.

Definition Replace (s old new : gostring) (n : Z) : gostring :=
  match old with
  | [] => s
  | _ :: _ => Replace_from O s old new n
  end.

(** [strings.TrimRight(s, cutset)] *)
Fixpoint TrimRight (s cutset : gostring) : gostring :=
  match s with
  | [] => []
  | c :: t =>
      match TrimRight t cutset with
      | [] => if bool_decide (c ∈ cutset) then [] else [c]
      | t' => c :: t'
      end
  end.

End GoStrings.

(** ** [ls] and [search]: views of the namespace snapshot *)
Module Listing.
Import GoStrings.

Record LsResponse := mkLsResponse {
  Directories : list gostring;
  Files : list gostring
}.

(** The body of the loop over [searchCache.Get()] in [ls]; [acc] holds
    [dirSet] and [fileSet] (Go maps used as sets). *)
Definition ls_step (prefix : gostring)
    (acc : gset gostring * gset gostring) (path : gostring)
    : gset gostring * gset gostring :=
  let lastColon := LastIndex path (str ":") in
  if lastColon <=? 0 then acc
  else
    let filePath := take (Z.to_nat lastColon) path in
    if negb (HasPrefix filePath prefix) then acc
    else
      let relPath := TrimPrefix filePath prefix in
      if Contains relPath (str ":") then
        let parts := SplitN2 relPath (str ":") in
        ({[ default [] (head parts) ]} ∪ acc.1, acc.2)
      else if negb (bool_decide (relPath = [])) then
        (acc.1, {[ relPath ]} ∪ acc.2)
      else acc.

Definition ls_prefix (target : gostring) : gostring :=
  if bool_decide (target = []) then target else target ++ str ":".

Definition ls_sets (items : list gostring) (target : gostring)
    : gset gostring * gset gostring :=
  fold_left (ls_step (ls_prefix target)) items (∅, ∅).

(** [ls], from the decoded request target to the response value.  A Go map
    is ranged over in no particular order: [elements] fixes one. *)
Definition ls (items : list gostring) (target : gostring) : LsResponse :=
  let sets := ls_sets items target in
  {| Directories := elements sets.1; Files := elements sets.2 |}.

(** [search], from the decoded request target to the response value. *)
Definition search (items : list gostring) (target : gostring) : list gostring :=
  if negb (bool_decide (target = []))
  then filter (fun path => Contains path target = true) items
  else [].

(** The client-side traversal the specification describes: list a level,
    then list every subdirectory it returned, collecting the files as
    colon-joined paths.  [fuel] bounds the depth. *)
Definition join_target (target name : gostring) : gostring :=
  if bool_decide (target = []) then name else target ++ str ":" ++ name.

Fixpoint list_rec (fuel : nat) (items : list gostring) (target : gostring)
    : list gostring :=
  match fuel with
  | O => []
  | S n =>
      let r := ls items target in
      (join_target target <$> Files r)
      ++ (Directories r ≫= fun d => list_rec n items (join_target target d))
  end.

(** The part of a metric identifier before its last colon. *)
Definition file_part (path : gostring) : gostring :=
  take (Z.to_nat (LastIndex path (str ":"))) path.

(** An identifier [seg1:...:segN:ds] with [N >= 1] whose first and last
    path segments are not empty. *)
Definition well_formed (path : gostring) : bool :=
  (0 <? LastIndex path (str ":"))
  && negb (HasPrefix path (str ":"))
  && negb (HasSuffix (file_part path) (str ":")).

End Listing.

(** ** Time, durations and number conversions *)
Module GoTime.

(** [time.Time]: nanoseconds since the Unix epoch. *)
Definition Time := Z.
(** [time.Duration]: nanoseconds. *)
Definition Duration := Z.

Definition Second : Duration := 1000000000.

(** [time.Time{}], the zero time: 0001-01-01 00:00:00 UTC. *)
Definition zeroTime : Time := -62135596800 * Second.

(** [time.Unix(sec, 0)] *)
Definition time_Unix (sec : Z) : Time := sec * Second.

(** [t.Unix()] *)
Definition Unix (t : Time) : Z := t / Second.

(** [t.After(u)] *)
Definition After (t u : Time) : bool := u <? t.

(** [t.Add(d)] *)
Definition Add (t : Time) (d : Duration) : Time := t + d.

(** Two's complement wrap-around of 64-bit integer arithmetic. *)
Definition wrap64 (z : Z) : Z := (z + 2 ^ 63) mod 2 ^ 64 - 2 ^ 63.

(** [float64(n)] for a 64-bit integer [n], rounding to nearest. *)
Definition float64_of_int (n : Z) : float :=
  if n =? - 2 ^ 63 then
    PrimFloat.opp (PrimFloat.mul (PrimFloat.of_uint63 (Uint63.of_Z (2 ^ 62))) 2)
  else if n <? 0 then PrimFloat.opp (PrimFloat.of_uint63 (Uint63.of_Z (- n)))
  else PrimFloat.of_uint63 (Uint63.of_Z n).

End GoTime.

(** ** The collaborators and the state the program runs in *)
Module Backend.
Import GoTime.

(** Go errors, by their message. *)
Definition error := gostring.

(** The flags of [SetArgs] that the core reads. *)
Record ServerConfig := mkServerConfig {
  RrdPath : gostring;
  Step : Z;
  Multiplier : Z;
  RrdCached : gostring
}.

(** A value of an [Info] line of the daemon; the program only ever asks
    whether it is an [int64]. *)
Inductive InfoValue :=
| VInt64 (z : Z)
| VOther.

Record InfoLine := mkInfoLine { Key : gostring; Value : InfoValue }.

(** [rrdcached.Fetch]: a missing sample is a nil pointer in [Data]. *)
Record DaemonFetch := mkDaemonFetch {
  d_Names : list gostring;
  d_Start : Time;
  d_Step : Duration;
  d_Rows : list (list (option float))
}.

(** What the program reads from [rrd.Info]: the entries [last_update] and
    [ds.index] (a map from datasource name to column). *)
Record LocalInfo := mkLocalInfo {
  last_update : Z;
  ds_index : gmap gostring Z
}.

(** [rrd.FetchResult] *)
Record LocalFetch := mkLocalFetch {
  DsNames : list gostring;
  l_Start : Time;
  l_Step : Duration;
  RowCnt : Z;
  ValueAt : nat → nat → float
}.

(** One call of the function given to [filepath.Walk]. *)
Record Visit := mkVisit {
  v_path : gostring;
  v_name : gostring;
  v_isDir : bool;
  v_err : option error
}.

(** Everything outside the program.  [Ext] is the state of the outside
    world (disk, daemon); a call maps it to a result and a new state.
    [Conn] is a connection to the daemon; a [*rrdcached.Client] is an
    [option Conn], [None] being the nil pointer.  [filepath_Walk root] is
    the sequence of calls [filepath.Walk] makes to a function that never
    returns an error.  An error is its message.  Every call is assumed to
    return. *)
Class Externals := {
  Ext : Type;
  Conn : Type;
  config : ServerConfig;
  (* github.com/ziutek/rrd *)
  rrd_Info : gostring → Ext → (LocalInfo + error) * Ext;
  rrd_Fetch : gostring → gostring → Time → Time → Duration → Ext
              → (LocalFetch + error) * Ext;
  (* github.com/multiplay/go-rrd *)
  NewClient : gostring → bool → Ext → (option Conn * option error) * Ext;
  client_Close : option Conn → Ext → Ext;
  client_Info : option Conn → gostring → Ext → (list InfoLine + error) * Ext;
  client_Flush : option Conn → gostring → Ext → option error * Ext;
  client_Fetch : option Conn → gostring → gostring → Z → Z → Ext
                 → (DaemonFetch + error) * Ext;
  (* path/filepath, os, go-zglob, regexp *)
  filepath_Walk : gostring → Ext → list Visit;
  filepath_Rel : gostring → gostring → gostring;
  os_Stat : gostring → Ext → option error * Ext;
  zglob_Glob : gostring → Ext → list gostring * Ext;
  Regexp : Type;
  regexp_Compile : gostring → option Regexp;
  ReplaceAllString : Regexp → gostring → gostring → gostring
}.

(** What the program does that can be seen from outside, in order. *)
Inductive Event :=
| EvFlush (path : gostring)
    (* rrdcachedClient.Flush(path) *)
| EvSleep (d : Duration)
    (* time.Sleep(d) *)
| EvFetch (path cf : gostring) (startUnix endUnix : Z)
    (* rrdcachedClient.Fetch(path, cf, startUnix, endUnix) *)
| EvFetchFailed (attempt : Z) (err : error)
    (* logger.Error("RRDCached fetch failed", ..., attempt, err) *)
| EvReconnect
    (* recreateRRDCachedClient() *)
| EvLastUpdate (path : gostring) (lastUpdate : Time)
    (* query: Info succeeded for path; lastUpdate as the clamp reads it *)
| EvFetchRRDData (path : gostring) (start end_ : Time).
    (* query: fetchRRDData(path, "AVERAGE", start, end_, step) *)

Section State.
Context `{Externals}.

(** The package-level variables and the outside world. *)
Record World := mkWorld {
  rrdcachedClient : option Conn;
  searchCache_items : list gostring;
  ext : Ext;
  trace : list Event
}.

(** A computation either returns or panics. *)
Inductive Res (A : Type) :=
| Ok (a : A) (w : World)
| Panic (w : World).
Global Arguments Ok {A} a w.
Global Arguments Panic {A} w.

Definition M (A : Type) : Type := World → Res A.

Definition ret {A} (a : A) : M A := fun w => Ok a w.

Definition bind {A B} (m : M A) (k : A → M B) : M B :=
  fun w => match m w with
           | Ok a w' => k a w'
           | Panic w' => Panic w'
           end.

(** [x ← m; k] and [m;; k] are sequencing in [M]. *)
Global Instance M_ret : MRet M := @ret.
Global Instance M_bind : MBind M := fun A B k m => bind m k.

Definition panic {A} : M A := fun w => Panic w.

Definition res_world {A} (r : Res A) : World :=
  match r with Ok _ w => w | Panic w => w end.

Definition get_client : M (option Conn) := fun w => Ok (rrdcachedClient w) w.

Definition set_client (c : option Conn) : M unit :=
  fun w => Ok tt (mkWorld c (searchCache_items w) (ext w) (trace w)).

Definition set_items (items : list gostring) : M unit :=
  fun w => Ok tt (mkWorld (rrdcachedClient w) items (ext w) (trace w)).

(** The world after a collaborator moved the outside state to [x], and
    after the program did [e]. *)
Definition set_ext (w : World) (x : Ext) : World :=
  mkWorld (rrdcachedClient w) (searchCache_items w) x (trace w).

Definition add_event (w : World) (e : Event) : World :=
  mkWorld (rrdcachedClient w) (searchCache_items w) (ext w) (trace w ++ [e]).

Definition emit (e : Event) : M unit := fun w => Ok tt (add_event w e).

(** A call to a collaborator. *)
Definition call {A} (f : Ext → A * Ext) : M A :=
  fun w => let '(a, x) := f (ext w) in Ok a (set_ext w x).

Definition observe {A} (f : Ext → A) : M A := fun w => Ok (f (ext w)) w.

End State.

End Backend.

(** ** [recreateRRDCachedClient] and [fetchRRDData] *)
Module Fetcher.
Import GoStrings GoTime Backend.

(** The six results of [fetchRRDData] other than the error. *)
Record FetchData := mkFetchData {
  points : list (list float);
  names : list gostring;
  start : Time;
  step : Duration;
  rowCnt : Z
}.

Section Fetcher.
Context `{Externals}.

(** [recreateRRDCachedClient]; the mutex it holds is not modelled. *)
Definition recreateRRDCachedClient : M (option error) :=
  c ← get_client;
  (if c is Some _
   then call (fun e => (tt, client_Close c e));; set_client None
   else mret tt);;
  let addr := RrdCached config in
  r ← (if HasPrefix addr (str "unix:")
       then call (NewClient (TrimPrefix addr (str "unix:")) true)
       else call (NewClient addr false));
  set_client r.1;;
  mret r.2.

(** An error is transient when its message mentions a timeout or the
    connection. *)
Definition transient (err : error) : bool :=
  Contains err (str "timeout") || Contains err (str "connection").

(** One iteration of the retry loop, up to the point where the loop
    breaks or goes on: the backoff, the fetch and, after a failure, the
    log line and the reconnection. *)
Definition fetch_attempt (attempt : Z) (filePath cf : gostring)
    (startUnix endUnix : Z) : M (DaemonFetch + error) :=
  (if 0 <? attempt
   then emit (EvSleep (attempt * attempt * Second))
   else mret tt);;
  c ← get_client;
  emit (EvFetch filePath cf startUnix endUnix);;
  r ← call (client_Fetch c filePath cf startUnix endUnix);
  match r with
  | inl _ => mret r
  | inr err =>
      emit (EvFetchFailed (attempt + 1) err);;
      (if transient err
       then emit EvReconnect;; recreateRRDCachedClient;; mret tt
       else mret tt);;
      mret r
  end.

(** The retry loop: [n] iterations are left, for [attempt], [attempt+1],
    ...; [cur] holds the variables [fetch] and [err] ([None] while both
    are nil).  A success breaks out of the loop. *)
Fixpoint fetch_loop (n : nat) (attempt : Z) (filePath cf : gostring)
    (startUnix endUnix : Z) (cur : option (DaemonFetch + error))
    : M (option (DaemonFetch + error)) :=
  match n with
  | O => mret cur
  | S n' =>
      r ← fetch_attempt attempt filePath cf startUnix endUnix;
      match r with
      | inl _ => mret (Some r)
      | inr _ =>
          fetch_loop n' (attempt + 1) filePath cf startUnix endUnix (Some r)
      end
  end.

(** [points[i][j] = *val], or NaN for a nil [val]. *)
Definition daemon_points (rows : list (list (option float))) : list (list float) :=
  (fun row : list (option float) =>
     (fun val : option float => default PrimFloat.nan val) <$> row) <$> rows.

(** [points[i][j] = fetchRes.ValueAt(j, i)] *)
Definition local_points (fetchRes : LocalFetch) : list (list float) :=
  (fun i : nat =>
     (fun j : nat => ValueAt fetchRes j i) <$> seq 0 (length (DsNames fetchRes)))
    <$> seq 0 (Z.to_nat (RowCnt fetchRes)).

Definition fetchRRDData (filePath cf : gostring) (start end_ : Time)
    (step : Duration) : M (FetchData + error) :=
  c ← get_client;
  if c is Some _ then
    let startUnix := Unix start in
    let endUnix := Unix end_ in
    emit (EvFlush filePath);;
    call (client_Flush c filePath);;
    r ← fetch_loop 3 0 filePath cf startUnix endUnix None;
    match r with
    | None => panic
    | Some (inr err) => mret (inr err)
    | Some (inl fetch) =>
        mret (inl (mkFetchData (daemon_points (d_Rows fetch)) (d_Names fetch)
                     (d_Start fetch) (d_Step fetch)
                     (Z.of_nat (length (d_Rows fetch)))))
    end
  else
    r ← call (rrd_Fetch filePath cf start end_ step);
    match r with
    | inr err => mret (inr err)
    | inl fetchRes =>
        if RowCnt fetchRes <? 0 then panic
        else mret (inl (mkFetchData (local_points fetchRes) (DsNames fetchRes)
                          (l_Start fetchRes) (l_Step fetchRes) (RowCnt fetchRes)))
    end.

End Fetcher.
End Fetcher.

(** ** [SearchCache.Update] *)
Module Cache.
Import GoStrings GoTime Backend.

Section Cache.
Context `{Externals}.

(** The keys of [dsIndex] as built from the daemon's [Info] lines. *)
Definition daemon_dsIndex (infoRes : list InfoLine) : gset gostring :=
  fold_left
    (fun dsIndex info =>
       if HasPrefix (Key info) (str "ds[") && HasSuffix (Key info) (str "].index")
       then {[ TrimSuffix (TrimPrefix (Key info) (str "ds[")) (str "].index") ]}
            ∪ dsIndex
       else dsIndex)
    infoRes ∅.

(** The name an archive file gets in the namespace. *)
Definition fName_of (rel : gostring) : gostring :=
  let fName := Replace rel (str ".rrd") [] 1 in
  Replace fName (str "/") (str ":") (-1).

(** The function given to [filepath.Walk]; it returns the grown
    [newItems] and its error result. *)
Definition walkFn (newItems : list gostring) (v : Visit)
    : M (list gostring * option error) :=
  match v_err v with
  | Some err => mret (newItems, Some err)
  | None =>
      if v_isDir v || negb (Contains (v_name v) (str ".rrd"))
      then mret (newItems, None)
      else
        let rel := filepath_Rel (RrdPath config) (v_path v) in
        let fName := fName_of rel in
        c ← get_client;
        dsIndex ← (if c is Some _ then
                     r ← call (client_Info c (v_path v));
                     mret (match r with
                           | inl infoRes => Some (daemon_dsIndex infoRes)
                           | inr _ => None
                           end)
                   else
                     r ← call (rrd_Info (v_path v));
                     mret (match r with
                           | inl infoRes => Some (dom (ds_index infoRes))
                           | inr _ => None
                           end));
        match dsIndex with
        | None => mret (newItems, None)
        | Some dsIndex =>
            mret (newItems ++ ((fun ds => fName ++ str ":" ++ ds) <$> elements dsIndex),
                  None)
        end
  end.

(** [filepath.Walk] over the visits it would make: it stops at the first
    call that returns an error and returns that error. *)
Fixpoint walk (visits : list Visit) (newItems : list gostring)
    : M (list gostring * option error) :=
  match visits with
  | [] => mret (newItems, None)
  | v :: rest =>
      r ← walkFn newItems v;
      match r.2 with
      | Some _ => mret r
      | None => walk rest r.1
      end
  end.

Definition walk_root : gostring :=
  TrimRight (RrdPath config) (str "/") ++ str "/".

Definition Update : M unit :=
  visits ← observe (filepath_Walk walk_root);
  r ← walk visits [];
  match r.2 with
  | Some _ => mret tt
  | None => set_items r.1
  end.

(** [SearchCache.Get] *)
Definition Get : M (list gostring) := fun w => Ok (searchCache_items w) w.

End Cache.
End Cache.

(** ** [query] *)
Module Query.
Import GoStrings GoTime Backend Fetcher.

Record QueryResponse := mkQueryResponse {
  Target : gostring;
  DataPoints : list (list float)
}.

(** The range clamp. *)
Definition clamp (from to lastUpdate : Time) : Time :=
  if After to lastUpdate && After lastUpdate from then lastUpdate else to.

(** The projection loop: [n] iterations are left and [i] is the row;
    [None] is an index out of range. *)
Fixpoint project_loop (n : nat) (i : nat) (fetchData : list (list float))
    (dsIndex : Z) (multiplier : Z) (fetchStep : Duration) (timestamp : Time)
    (points : list (list float)) : option (list (list float)) :=
  match n with
  | O => Some points
  | S n' =>
      match fetchData !! i with
      | None => None
      | Some row =>
          let next := project_loop n' (S i) fetchData dsIndex multiplier fetchStep
                        (Add timestamp fetchStep) in
          if dsIndex <? Z.of_nat (length row) then
            if dsIndex <? 0 then None
            else
              match row !! Z.to_nat dsIndex with
              | None => None
              | Some value =>
                  if negb (PrimFloat.is_nan value) then
                    let product := PrimFloat.mul (float64_of_int multiplier) value in
                    next (points ++ [[product;
                                      PrimFloat.mul (float64_of_int (Unix timestamp)) 1000]])
                  else next points
              end
          else next points
      end
  end.

Definition project (fd : FetchData) (dsIndex multiplier : Z)
    : option (list (list float)) :=
  project_loop (Z.to_nat (rowCnt fd - 1)) 0 (points fd) dsIndex multiplier
    (step fd) (start fd) [].

(** The first position of [ds] in [dsNames], from position [i]. *)
Fixpoint find_name (ds : gostring) (dsNames : list gostring) (i : Z) : option Z :=
  match dsNames with
  | [] => None
  | name :: rest => if bool_decide (name = ds) then Some i else find_name ds rest (i + 1)
  end.

Section Query.
Context `{Externals}.

(** One line of the daemon's [Info] answer, in the loop that reads
    [lastUpdate] and [dsIndex]. *)
Definition info_step (ds : gostring) (acc : Time * Z) (info : InfoLine) : Time * Z :=
  let lastUpdate :=
    if bool_decide (Key info = str "last_update")
    then match Value info with VInt64 val => time_Unix val | VOther => acc.1 end
    else acc.1 in
  let dsIndex :=
    if HasPrefix (Key info) (str "ds[" ++ ds ++ str "].index")
    then match Value info with VInt64 val => val | VOther => acc.2 end
    else acc.2 in
  (lastUpdate, dsIndex).

(** The Info step for one file: [None] when the call fails (the file is
    skipped), else [lastUpdate] and [dsIndex]. *)
Definition file_info (ds filePath : gostring) : M (option (Time * Z)) :=
  c ← get_client;
  if c is Some _ then
    r ← call (client_Info c filePath);
    match r with
    | inr _ => mret None
    | inl infoRes => mret (Some (fold_left (info_step ds) infoRes (zeroTime, 0)))
    end
  else
    r ← call (rrd_Info filePath);
    match r with
    | inr _ => mret None
    | inl infoRes =>
        let lastUpdate := time_Unix (wrap64 (last_update infoRes)) in
        match ds_index infoRes !! ds with
        | None => panic
        | Some idx => mret (Some (lastUpdate, wrap64 idx))
        end
    end.

Definition extractedTarget (filePath ds : gostring) : gostring :=
  let t := Replace filePath (str ".rrd") [] (-1) in
  let t := Replace t (RrdPath config) [] (-1) in
  Replace t (str "/") (str ":") (-1) ++ str ":" ++ ds.

(** The body of the loop over the files of one target; the state is the
    variables [to] and [result], which outlive the iteration. *)
Definition query_file (ds : gostring) (from : Time)
    (st : Time * list QueryResponse) (filePath : gostring)
    : M (Time * list QueryResponse) :=
  statErr ← call (os_Stat filePath);
  if statErr is Some _ then mret st
  else
    info ← file_info ds filePath;
    match info with
    | None => mret st
    | Some (lastUpdate, dsIndex) =>
        emit (EvLastUpdate filePath lastUpdate);;
        let to := clamp from st.1 lastUpdate in
        emit (EvFetchRRDData filePath from to);;
        r ← fetchRRDData filePath (str "AVERAGE") from to
              (wrap64 (Step config * Second));
        match r with
        | inr _ => mret (to, st.2)
        | inl fd =>
            c ← get_client;
            let dsIndex :=
              if bool_decide (c ≠ None) && (dsIndex =? 0)
              then default dsIndex (find_name ds (names fd) 0)
              else dsIndex in
            match project fd dsIndex (Multiplier config) with
            | None => panic
            | Some points =>
                mret (to, st.2 ++ [mkQueryResponse (extractedTarget filePath ds) points])
            end
        end
    end.

Fixpoint foldM {A B} (f : A → B → M A) (a : A) (l : list B) : M A :=
  match l with
  | [] => mret a
  | x :: l' => a' ← f a x; foldM f a' l'
  end.

(** The glob pattern of a target; [None] when [regexp.MustCompile]
    panics. *)
Definition target_ds (target : gostring) : gostring :=
  drop (Z.to_nat (LastIndex target (str ":") + 1)) target.

Definition fileSearchPath (target : gostring) : option gostring :=
  let ds := target_ds target in
  match regexp_Compile (str ":" ++ ds ++ str "$") with
  | None => None
  | Some rrdDsRep =>
      let p := ReplaceAllString rrdDsRep target [] in
      Some (TrimRight (RrdPath config) (str "/") ++ str "/"
            ++ Replace p (str ":") (str "/") (-1) ++ str ".rrd")
  end.

(** The body of the loop over the targets. *)
Definition query_target (from : Time) (st : Time * list QueryResponse)
    (target : gostring) : M (Time * list QueryResponse) :=
  match fileSearchPath target with
  | None => panic
  | Some pattern =>
      fileNameArray ← call (zglob_Glob pattern);
      foldM (query_file (target_ds target) from) st fileNameArray
  end.

(** [query], from the decoded request (the parsed range and the target
    strings) to the value handed to [respondJSON]. *)
Definition query (from to : Time) (targets : list gostring)
    : M (list QueryResponse) :=
  st ← foldM (query_target from) (to, []) targets;
  mret st.2.

End Query.
End Query.

(** ** [annotations] *)
Module Annotations.
Import GoTime.

(** A line of the annotations file. *)
Record AnnotationCSV := mkAnnotationCSV {
  a_Time : Z;
  a_Title : gostring;
  a_Tags : gostring;
  a_Text : gostring
}.

Record AnnotationResponse := mkAnnotationResponse {
  Annotation : gostring;
  r_Time : Z;
  r_Title : gostring;
  r_Tags : gostring;
  r_Text : gostring
}.

(** What [annotations] answers: the preflight headers with an empty body,
    [respondJSON] of an [ErrorResponse], or [respondJSON] of the result. *)
Inductive AnnotationsAnswer :=
| Preflight
| Message (m : gostring)
| Selected (result : list AnnotationResponse).

(** The condition of the loop over [annots], in 64-bit arithmetic. *)
Definition in_range (from to : Time) (a : AnnotationCSV) : bool :=
  (wrap64 (Unix from * 1000) <=? a_Time a)
  && (a_Time a <=? wrap64 (Unix to * 1000)).

(** The loop over [annots]. *)
Fixpoint annotations_loop (from to : Time) (annots : list AnnotationCSV)
    (result : list AnnotationResponse) : list AnnotationResponse :=
  match annots with
  | [] => result
  | a :: rest =>
      annotations_loop from to rest
        (if in_range from to a
         then result ++ [mkAnnotationResponse (str "annotation") (a_Time a)
                           (a_Title a) (a_Tags a) (a_Text a)]
         else result)
  end.

(** [annotations].  [decoded] is the range of the decoded request, [None]
    when the body does not decode (a bound that does not parse is the zero
    time); [annots] is what [gocsv.UnmarshalFile] left in [annots], which
    stays empty when the file cannot be opened. *)
Definition annotations (method AnnotationFilePath : gostring)
    (decoded : option (Time * Time)) (annots : list AnnotationCSV)
    : AnnotationsAnswer :=
  if bool_decide (method = str "OPTIONS") then Preflight
  else if bool_decide (AnnotationFilePath = []) then Message (str "Not configured")
  else match decoded with
       | None => Message (str "Cannot decode the request")
       | Some (from, to) => Selected (annotations_loop from to annots [])
       end.

End Annotations.

(** ** Measures of a trace *)
Module Measures.
Import GoTime Backend.

(** The time spent in [time.Sleep]. *)
Fixpoint slept (tr : list Event) : Z :=
  match tr with
  | [] => 0
  | EvSleep d :: tr' => d + slept tr'
  | _ :: tr' => slept tr'
  end.

End Measures.

(** ** The vocabulary of the properties *)
Module Spec.
Import GoStrings GoTime Backend Fetcher Cache Query.

(** The events of attempt number [k] (from 0) with outcome [o]: the
    backoff, the fetch, and for a failure its log line and, when the error
    is transient, the reconnection. *)
Definition attempt_events (filePath cf : gostring)
    (startUnix endUnix : Z) (k : nat) (o : option error) : list Event :=
  (if k is O then [] else [EvSleep (Z.of_nat k * Z.of_nat k * Second)])
  ++ [EvFetch filePath cf startUnix endUnix]
  ++ match o with
     | None => []
     | Some err =>
         EvFetchFailed (Z.of_nat k + 1) err
         :: (if transient err then [EvReconnect] else [])
     end.

(** The error of an attempt, if it failed. *)
Definition outcome {A} (r : A + error) : option error :=
  match r with inl _ => None | inr err => Some err end.

(** The datapoints row number [i] contributes: none when the column is out
    of range or holds NaN, else the scaled value and the row's time in
    milliseconds. *)
Definition row_point (dsIndex multiplier : Z) (fetchStart : Time)
    (fetchStep : Duration) (i : nat) (row : list float) : list (list float) :=
  match row !! Z.to_nat dsIndex with
  | Some value =>
      if PrimFloat.is_nan value then []
      else [[PrimFloat.mul (float64_of_int multiplier) value;
             PrimFloat.mul
               (float64_of_int (Unix (fetchStart + Z.of_nat i * fetchStep))) 1000]]
  | None => []
  end.

(** Replaying a trace against the request's range: the end time starts as
    the requested [to], every file whose Info succeeded clamps it, and every
    call of [fetchRRDData] must carry [from] and the end time as it then
    stands.  The result is the end time after the trace, or [None] when
    some call carried anything else. *)
Fixpoint clamp_replay (from to : Time) (tr : list Event) : option Time :=
  match tr with
  | [] => Some to
  | EvLastUpdate _ lastUpdate :: tr' =>
      clamp_replay from (clamp from to lastUpdate) tr'
  | EvFetchRRDData _ s e :: tr' =>
      if (s =? from) && (e =? to) then clamp_replay from to tr' else None
  | _ :: tr' => clamp_replay from to tr'
  end.

(** Events of the fetch itself, which the replay passes over. *)
Definition fetch_event (e : Event) : Prop :=
  match e with
  | EvLastUpdate _ _ | EvFetchRRDData _ _ _ => False
  | _ => True
  end.

(** A relative path that holds no colon and holds [.rrd] only as its
    ending. *)
Definition plain_rel (rel : gostring) : bool :=
  negb (Contains rel (str ":"))
  && (0 <=? Index rel (str ".rrd"))
  && (Index rel (str ".rrd") =? Z.of_nat (length rel) - 4).

(** [item] is [prefix:ds] where [prefix], with its colons turned back into
    path separators and the extension appended, is [rel]. *)
Definition names_file (item rel : gostring) : Prop :=
  ∃ prefix ds,
    item = prefix ++ str ":" ++ ds
    ∧ Replace prefix (str ":") (str "/") (-1) ++ str ".rrd" = rel.

Section Spec.
Context `{Externals}.

(** [wp m Q E w]: run from [w], [m] returns a value and a world that
    satisfy [Q], or panics in a world that satisfies [E]. *)
Definition wp {A} (m : M A) (Q : A → World → Prop) (E : World → Prop)
    (w : World) : Prop :=
  match m w with
  | Ok a w' => Q a w'
  | Panic w' => E w'
  end.

(** What a step leaves alone: the trace grows by [evs] and the snapshot
    stays. *)
Definition grows (w : World) (evs : list Event) (w' : World) : Prop :=
  trace w' = trace w ++ evs ∧ searchCache_items w' = searchCache_items w.

(** [item] was made for the archive file visited as [v]. *)
Definition made_for (item : gostring) (v : Visit) : Prop :=
  v_isDir v = false
  ∧ Contains (v_name v) (str ".rrd") = true
  ∧ ∃ ds, item = fName_of (filepath_Rel (RrdPath config) (v_path v)) ++ str ":" ++ ds.

(** [item] names an archive file among the visits of the walk: a visited
    file whose path relative to the base path is [item]'s path segments
    rejoined. *)
Definition names_archive (visits : list Visit) (item : gostring) : Prop :=
  ∃ v, v ∈ visits ∧ v_isDir v = false
       ∧ names_file item (filepath_Rel (RrdPath config) (v_path v)).

(** The files the walk takes for archives have plain relative paths. *)
Definition plain_visit (v : Visit) : bool :=
  v_isDir v || negb (Contains (v_name v) (str ".rrd"))
  || plain_rel (filepath_Rel (RrdPath config) (v_path v)).

End Spec.

End Spec.

(** ** More vocabulary, for the further properties *)
Module SpecMore.
Import GoStrings GoTime Backend Fetcher Cache Query.

Section SpecMore.
Context `{Externals}.

(** From [w] to [w'] the trace grew, and the shared client changed only if
    a reconnection is among the new events. *)
Definition client_kept (w w' : World) : Prop :=
  ∃ evs, trace w' = trace w ++ evs
         ∧ (EvReconnect ∉ evs → rrdcachedClient w' = rrdcachedClient w).

(** The entries [file] gets when its Info answers [info]. *)
Definition entries_of (v : Visit) (info : LocalInfo) : list gostring :=
  (fun ds => fName_of (filepath_Rel (RrdPath config) (v_path v)) ++ str ":" ++ ds)
    <$> elements (dom (ds_index info)).

(** [st'] holds the results of [st] followed by at most one result for each
    of [files], in their order, each labelled with its file and [ds]. *)
Definition labelled (ds : gostring) (files : list gostring)
    (st st' : Time * list QueryResponse) : Prop :=
  ∃ sel, st'.2 = st.2 ++ sel
         ∧ (Target <$> sel) `sublist_of` ((fun f => extractedTarget f ds) <$> files).

End SpecMore.

End SpecMore.

(** ** Concrete collaborators, for examples *)
Module Scenarios.
Import GoStrings GoTime Backend Fetcher Annotations.

(** A regular expression [lit$] with a literal [lit], kept as [lit]. *)
Definition literal_at_end (pattern : gostring) : option gostring :=
  if HasSuffix pattern (str "$") then Some (TrimSuffix pattern (str "$")) else None.

Definition replace_at_end (lit s repl : gostring) : gostring :=
  if HasSuffix s lit then TrimSuffix s lit ++ repl else s.

(** Scripted collaborators.  The outside state counts the fetches the
    daemon has answered; [dfetch n] is its answer to fetch number [n]. *)
Definition scripted (cfg : ServerConfig)
    (infos : gostring → LocalInfo + error)
    (lfetch : gostring → LocalFetch + error)
    (dinfos : gostring → list InfoLine + error)
    (dfetch : nat → DaemonFetch + error)
    (visits : list Visit)
    (globs : gostring → list gostring) : Externals :=
  {| Ext := nat;
     Conn := unit;
     config := cfg;
     rrd_Info := fun path x => (infos path, x);
     rrd_Fetch := fun path _ _ _ _ x => (lfetch path, x);
     NewClient := fun _ _ x => ((Some tt, None), x);
     client_Close := fun _ x => x;
     client_Info := fun _ path x => (dinfos path, x);
     client_Flush := fun _ _ x => (None, x);
     client_Fetch := fun _ _ _ _ _ x => (dfetch x, S x);
     filepath_Walk := fun _ _ => visits;
     filepath_Rel := fun base path => TrimPrefix path (base ++ str "/");
     os_Stat := fun _ x => (None, x);
     zglob_Glob := fun pattern x => (globs pattern, x);
     Regexp := gostring;
     regexp_Compile := literal_at_end;
     ReplaceAllString := replace_at_end |}.

Definition cfg10 : ServerConfig :=
  {| RrdPath := str "/rrd"; Step := 10; Multiplier := 10; RrdCached := [] |}.

Definition no_info : gostring → LocalInfo + error := fun _ => inr (str "no such file").
Definition no_lfetch : gostring → LocalFetch + error := fun _ => inr (str "no such file").
Definition no_dinfo : gostring → list InfoLine + error := fun _ => inr (str "no such file").
Definition no_dfetch : nat → DaemonFetch + error := fun _ => inr (str "no such file").

(** Three rows of one column: 2.5, a missing sample, 7. *)
Definition rows3 : list (list (option float)) :=
  [[Some 2.5%float]; [None]; [Some 7%float]].

Definition fetch3 : DaemonFetch :=
  {| d_Names := [str "used"]; d_Start := time_Unix 100; d_Step := 10 * Second;
     d_Rows := rows3 |}.

(** A daemon whose first two fetches time out. *)
Definition flaky_daemon : Externals :=
  scripted cfg10 no_info no_lfetch no_dinfo
    (fun n => if (n <? 2)%nat then inr (str "read unix: i/o timeout") else inl fetch3)
    [] (fun _ => []).

(** A daemon that never answers a fetch. *)
Definition dead_daemon : Externals :=
  scripted cfg10 no_info no_lfetch no_dinfo
    (fun n => inr (str "connection refused" ++ [ascii_of_nat (48 + n)]))
    [] (fun _ => []).

(** A local archive answer: three rows of one column. *)
Definition local3 : LocalFetch :=
  {| DsNames := [str "used"]; l_Start := time_Unix 0; l_Step := 10 * Second;
     RowCnt := 3;
     ValueAt := fun _ i => match i with
                           | O => 2.5%float
                           | S O => PrimFloat.nan
                           | _ => 7%float
                           end |}.

Definition info_of (lastUpdate : Z) : LocalInfo :=
  {| last_update := lastUpdate; ds_index := {[ str "used" := 0 ]} |}.

(** Local archives [a], [c], [d] and [b] under [/rrd], in the order the glob
    returns them: last updated at 50s, unreadable, 60s but failing to fetch,
    and 80s. *)
Definition four_files : Externals :=
  scripted cfg10
    (fun path =>
       if bool_decide (path = str "/rrd/a.rrd") then inl (info_of 50)
       else if bool_decide (path = str "/rrd/d.rrd") then inl (info_of 60)
       else if bool_decide (path = str "/rrd/b.rrd") then inl (info_of 80)
       else inr (str "opening error"))
    (fun path =>
       if bool_decide (path = str "/rrd/d.rrd") then inr (str "fetch error")
       else inl local3)
    no_dinfo no_dfetch []
    (fun pattern =>
       if bool_decide (pattern = str "/rrd/*.rrd")
       then [str "/rrd/a.rrd"; str "/rrd/c.rrd"; str "/rrd/d.rrd"; str "/rrd/b.rrd"]
       else []).

(** Local archives [a] and [b], last updated at 50s and at 80s. *)
Definition two_files : Externals :=
  scripted cfg10
    (fun path =>
       if bool_decide (path = str "/rrd/a.rrd") then inl (info_of 50)
       else if bool_decide (path = str "/rrd/b.rrd") then inl (info_of 80)
       else inr (str "opening error"))
    (fun _ => inl local3)
    no_dinfo no_dfetch []
    (fun pattern =>
       if bool_decide (pattern = str "/rrd/*.rrd")
       then [str "/rrd/a.rrd"; str "/rrd/b.rrd"]
       else []).

(** Storage trees, as the visits of a walk; every archive has the one
    datasource [used]. *)
Definition tree (visits : list Visit) : Externals :=
  scripted cfg10 (fun _ => inl (info_of 50)) no_lfetch no_dinfo no_dfetch visits
    (fun _ => []).

Definition plain_tree : Externals :=
  tree [mkVisit (str "/rrd/") (str "rrd") true None;
        mkVisit (str "/rrd/host1") (str "host1") true None;
        mkVisit (str "/rrd/host1/cpu.rrd") (str "cpu.rrd") false None;
        mkVisit (str "/rrd/host1/notes.txt") (str "notes.txt") false None].

(** An archive whose file name holds a colon. *)
Definition colon_tree : Externals :=
  tree [mkVisit (str "/rrd/") (str "rrd") true None;
        mkVisit (str "/rrd/a:b.rrd") (str "a:b.rrd") false None].

(** A copy [foo.rrd.bak] of an archive. *)
Definition backup_tree : Externals :=
  tree [mkVisit (str "/rrd/") (str "rrd") true None;
        mkVisit (str "/rrd/foo.rrd.bak") (str "foo.rrd.bak") false None].

(** A tree with a directory that cannot be read. *)
Definition broken_tree : Externals :=
  tree [mkVisit (str "/rrd/") (str "rrd") true None;
        mkVisit (str "/rrd/a.rrd") (str "a.rrd") false None;
        mkVisit (str "/rrd/locked") (str "locked") true (Some (str "permission denied"))].

Definition index3 : list gostring :=
  [str "host1:cpu:used"; str "host1:cpu:idle"; str "host2:mem:used"].

(** Four rows of one column; the final row holds a valid number. *)
Definition fd4 : FetchData :=
  {| points := [[2.5%float]; [PrimFloat.nan]; [7%float]; [9%float]];
     names := [str "used"];
     start := time_Unix 100;
     step := 10 * Second;
     rowCnt := 4 |}.

Definition sample_annots : list AnnotationCSV :=
  [mkAnnotationCSV 500 (str "deploy") (str "ops") (str "v1");
   mkAnnotationCSV 1500 (str "deploy") (str "ops") (str "v2");
   mkAnnotationCSV 9000 (str "alert") (str "ops") (str "disk")].

Definition cfg_slash : ServerConfig :=
  {| RrdPath := str "/rrd/"; Step := 10; Multiplier := 1; RrdCached := [] |}.

Definition slash_tree : Externals :=
  scripted cfg_slash (fun _ => inl (info_of 50)) no_lfetch no_dinfo no_dfetch []
    (fun _ => []).

Definition world0 (E : Externals) (c : option (@Conn E)) (x : @Ext E) : @World E :=
  mkWorld c [] x [].

End Scenarios.

(** * Properties *)

(** ** Facts about the string functions *)
Module GoStringsFacts.
Import GoStrings.

Lemma HasPrefix_spec (s p : gostring) :
  HasPrefix s p = true ↔ ∃ r, s = p ++ r.
Proof.
  revert s. induction p as [|b p IH]; intros s; simpl.
  - split; [intros _; by exists s | done].
  - destruct s as [|a s].
    + split; [done | intros [r Hr]; discriminate].
    + rewrite andb_true_iff, Ascii.eqb_eq, IH. split.
      * intros [-> [r ->]]. by exists r.
      * intros [r Hr]. injection Hr as -> ->. eauto.
Qed.

Lemma HasPrefix_app (p r : gostring) : HasPrefix (p ++ r) p = true.
Proof. apply HasPrefix_spec. by exists r. Qed.

Lemma HasPrefix_nil (s : gostring) : HasPrefix s [] = true.
Proof. by destruct s. Qed.

Lemma TrimPrefix_app (p r : gostring) : TrimPrefix (p ++ r) p = r.
Proof. unfold TrimPrefix. rewrite HasPrefix_app. by rewrite drop_app_length. Qed.

Lemma Contains_spec (s sub : gostring) :
  Contains s sub = true ↔ ∃ a b, s = a ++ sub ++ b.
Proof.
  induction s as [|c s IH]; simpl.
  - rewrite orb_false_r, HasPrefix_spec. split.
    + intros [r Hr]. by exists [], r.
    + intros (a & b & Hab). destruct a; [by exists b | discriminate].
  - rewrite orb_true_iff, HasPrefix_spec, IH. split.
    + intros [[r Hr] | (a & b & ->)]; [by exists [], r | by exists (c :: a), b].
    + intros (a & b & Hab). destruct a as [|c' a]; [left; by exists b |].
      right. injection Hab as -> ->. by exists a, b.
Qed.

Lemma Contains_char (s : gostring) (c : ascii) :
  Contains s [c] = true ↔ c ∈ s.
Proof.
  rewrite Contains_spec. split.
  - intros (a & b & ->). set_solver.
  - intros (a & b & ->)%list_elem_of_split. by exists a, b.
Qed.

Lemma Contains_char_false (s : gostring) (c : ascii) :
  Contains s [c] = false ↔ c ∉ s.
Proof. rewrite <- Contains_char. by destruct (Contains s [c]). Qed.

(** Splitting at the first occurrence of a byte. *)
Lemma first_split (s : gostring) (c : ascii) :
  c ∈ s → ∃ d r, s = d ++ c :: r ∧ c ∉ d.
Proof.
  induction s as [|a s IH]; [by intros ?%elem_of_nil |].
  destruct (decide (a = c)) as [->|Hne].
  - intros _. exists [], s. split; [done | apply not_elem_of_nil].
  - intros [?|Hin]%elem_of_cons; [congruence |].
    destruct (IH Hin) as (d & r & -> & Hd).
    exists (a :: d), r. split; [done | set_solver].
Qed.

Lemma first_split_inj (c : ascii) (d1 d2 r1 r2 : gostring) :
  c ∉ d1 → c ∉ d2 → d1 ++ c :: r1 = d2 ++ c :: r2 → d1 = d2 ∧ r1 = r2.
Proof.
  revert d2. induction d1 as [|a d1 IH]; intros [|b d2] H1 H2 Heq; simpl in *.
  - by injection Heq.
  - injection Heq as <- _. set_solver.
  - injection Heq as -> _. set_solver.
  - injection Heq as -> Heq.
    destruct (IH d2) as [-> ->]; [set_solver | set_solver | done | done].
Qed.

Lemma Index_char (c : ascii) (d r : gostring) :
  c ∉ d → Index (d ++ c :: r) [c] = Z.of_nat (length d).
Proof.
  induction d as [|a d IH]; intros Hd; simpl.
  - by rewrite Ascii.eqb_refl.
  - destruct (Ascii.eqb_spec a c) as [->|_]; [set_solver |].
    simpl. rewrite IH by set_solver.
    destruct (Z.ltb_spec (Z.of_nat (length d)) 0); lia.
Qed.

Lemma SplitN2_char (c : ascii) (d r : gostring) :
  c ∉ d → SplitN2 (d ++ c :: r) [c] = [d; r].
Proof.
  intros Hd. unfold SplitN2. rewrite Index_char by done.
  destruct (Z.ltb_spec (Z.of_nat (length d)) 0); [lia |].
  rewrite Nat2Z.id, take_app_length.
  replace (length d + length [c])%nat with (length (d ++ [c])) by (rewrite length_app; done).
  by rewrite (cons_middle c d r), app_assoc, drop_app_length.
Qed.

Lemma LastIndex_none (c : ascii) (s : gostring) :
  c ∉ s → LastIndex s [c] = -1.
Proof.
  induction s as [|a s IH]; intros Hs; simpl; [done |].
  rewrite IH by set_solver. simpl.
  destruct (Ascii.eqb_spec a c) as [->|_]; [set_solver | done].
Qed.

Lemma LastIndex_char (c : ascii) (fp ds : gostring) :
  c ∉ ds → LastIndex (fp ++ c :: ds) [c] = Z.of_nat (length fp).
Proof.
  intros Hds. induction fp as [|a fp IH]; simpl.
  - rewrite LastIndex_none by done. simpl. by rewrite Ascii.eqb_refl.
  - rewrite IH. destruct (Z.leb_spec 0 (Z.of_nat (length fp))); lia.
Qed.

(** Splitting at the last occurrence of a byte. *)
Lemma last_split (s : gostring) (c : ascii) :
  c ∈ s → ∃ fp ds, s = fp ++ c :: ds ∧ c ∉ ds.
Proof.
  induction s as [|a s IH]; [by intros ?%elem_of_nil |].
  intros Hin. destruct (decide (c ∈ s)) as [Hs|Hs].
  - destruct (IH Hs) as (fp & ds & -> & Hds). by exists (a :: fp), ds.
  - assert (a = c) as -> by set_solver. by exists [], s.
Qed.

Lemma LastIndex_pos (c : ascii) (s : gostring) :
  (0 <= LastIndex s [c]) →
  ∃ fp ds, s = fp ++ c :: ds ∧ (c ∉ ds) ∧ LastIndex s [c] = Z.of_nat (length fp).
Proof.
  intros Hpos. destruct (decide (c ∈ s)) as [Hs|Hs].
  - destruct (last_split s c Hs) as (fp & ds & -> & Hds).
    exists fp, ds. by rewrite LastIndex_char.
  - rewrite LastIndex_none in Hpos by done. lia.
Qed.

Lemma HasSuffix_app (r p : gostring) : HasSuffix (r ++ p) p = true.
Proof.
  unfold HasSuffix. rewrite length_app.
  replace (length r + length p - length p)%nat with (length r) by lia.
  rewrite drop_app_length, bool_decide_eq_true_2 by done.
  rewrite andb_true_r. apply Nat.leb_le. lia.
Qed.

(** [Replace] with a count of 0 only passes over what is left to skip. *)
Lemma Replace_from_zero (skip : nat) (s old new : gostring) :
  Replace_from skip s old new 0 = drop skip s.
Proof.
  revert skip. induction s as [|c s IH]; intros [|k]; simpl; try done.
  by rewrite (IH O), drop_0.
Qed.

(** Replacing the first occurrence. *)
Lemma Replace_first (s old new : gostring) :
  old ≠ [] →
  (0 <= Index s old) →
  Replace s old new 1
  = take (Z.to_nat (Index s old)) s ++ new
    ++ drop (Z.to_nat (Index s old) + length old) s.
Proof.
  intros Hold. unfold Replace. destruct old as [|o old]; [done |]. clear Hold.
  induction s as [|c s IH]; simpl.
  - intros; lia.
  - destruct (HasPrefix (c :: s) (o :: old)) eqn:Hp.
    + intros _. simpl in Hp. rewrite Hp. simpl.
      by rewrite Replace_from_zero, Nat.sub_0_r.
    + simpl in Hp. rewrite Hp. simpl.
      destruct (Z.ltb_spec (Index s (o :: old)) 0) as [Hlt|Hge]; [lia |].
      intros _. rewrite IH by done.
      replace (Z.to_nat (1 + Index s (o :: old)))
        with (S (Z.to_nat (Index s (o :: old)))) by lia.
      done.
Qed.

(** Where [Index] points, the substring is. *)
Lemma Index_found (s old : gostring) :
  (0 <= Index s old) →
  s = take (Z.to_nat (Index s old)) s ++ old
      ++ drop (Z.to_nat (Index s old) + length old) s.
Proof.
  induction s as [|c s IH]; simpl.
  - destruct (HasPrefix [] old) eqn:Hp; [| lia].
    intros _. apply HasPrefix_spec in Hp as [r Hr].
    symmetry in Hr. apply app_eq_nil in Hr as [-> ->]. done.
  - destruct (HasPrefix (c :: s) old) eqn:Hp.
    + intros _. apply HasPrefix_spec in Hp as [r Hr]. simpl.
      rewrite Hr at 1. f_equal. by rewrite Hr, drop_app_length.
    + destruct (Z.ltb_spec (Index s old) 0) as [Hlt|Hge]; [lia |].
      intros _.
      replace (Z.to_nat (1 + Index s old)) with (S (Z.to_nat (Index s old))) by lia.
      simpl. f_equal. by apply IH.
Qed.

(** Replacing every occurrence of one byte by another. *)
Lemma Replace_byte (s : gostring) (a b : ascii) (n : Z) :
  n < 0 →
  Replace s [a] [b] n = (fun c => if Ascii.eqb c a then b else c) <$> s.
Proof.
  unfold Replace. revert n. induction s as [|c s IH]; intros n Hn; [done |].
  cbn [Replace_from length Nat.sub]. 
  destruct (Z.eqb_spec n 0) as [->|_]; [lia |]. simpl.
  destruct (Ascii.eqb c a); simpl; rewrite IH by lia; done.
Qed.

Lemma Replace_byte_back (s : gostring) (a b : ascii) :
  b ∉ s →
  Replace (Replace s [a] [b] (-1)) [b] [a] (-1) = s.
Proof.
  rewrite !Replace_byte by lia.
  induction s as [|c s IH]; intros Hb; [done |]. cbn [fmap list_fmap].
  rewrite IH by set_solver. f_equal.
  destruct (Ascii.eqb_spec c a) as [->|Hca].
  - by rewrite Ascii.eqb_refl.
  - destruct (Ascii.eqb_spec c b) as [->|_]; [set_solver | done].
Qed.

Lemma Replace_byte_gone (s : gostring) (a b : ascii) :
  a ≠ b → a ∉ Replace s [a] [b] (-1).
Proof.
  intros Hab. rewrite Replace_byte by lia.
  intros (c & Hc & _)%list_elem_of_fmap.
  destruct (Ascii.eqb_spec c a); congruence.
Qed.

End GoStringsFacts.

(** ** The directory view and search *)
Module ListingFacts.
Import GoStrings GoStringsFacts Listing.

Lemma file_part_app (fp ds : gostring) :
  ":"%char ∉ ds → file_part (fp ++ ":"%char :: ds) = fp.
Proof.
  intros Hds. unfold file_part, str. simpl.
  rewrite LastIndex_char by done. by rewrite Nat2Z.id, take_app_length.
Qed.

Lemma file_part_nil (path : gostring) :
  LastIndex path (str ":") <= 0 → file_part path = [].
Proof.
  intros Hle. unfold file_part.
  replace (Z.to_nat (LastIndex path (str ":"))) with O by lia.
  apply take_0.
Qed.

Lemma ls_prefix_join (target name : gostring) :
  join_target target name = ls_prefix target ++ name.
Proof.
  unfold join_target, ls_prefix. case_bool_decide; [by subst |].
  by rewrite <- app_assoc.
Qed.

Lemma ls_prefix_extend (target d : gostring) :
  join_target target d ≠ [] →
  ls_prefix (join_target target d) = ls_prefix target ++ d ++ str ":".
Proof.
  intros Hne. unfold ls_prefix at 1. case_bool_decide; [done |].
  by rewrite ls_prefix_join, <- app_assoc.
Qed.

(** What one snapshot entry adds to the two sets. *)
Lemma ls_step_spec (prefix : gostring) acc (path : gostring) :
  (∀ d, d ∈ (ls_step prefix acc path).1 ↔
        d ∈ acc.1 ∨ ∃ rest, file_part path = prefix ++ d ++ ":"%char :: rest
                            ∧ ":"%char ∉ d)
  ∧ (∀ f, f ∈ (ls_step prefix acc path).2 ↔
        f ∈ acc.2 ∨ (file_part path = prefix ++ f ∧ (":"%char ∉ f) ∧ f ≠ [])).
Proof.
  unfold ls_step. destruct (Z.leb_spec (LastIndex path (str ":")) 0) as [Hle|Hlt].
  { rewrite (file_part_nil _ Hle).
    split; intros x; (split; [by left |]); intros [?|H]; try done.
    - destruct H as (rest & H & _). by destruct prefix, x.
    - destruct H as (H & _ & ?). by destruct prefix, x. }
  fold (file_part path).
  destruct (HasPrefix (file_part path) prefix) eqn:Hpre; simpl.
  2:{ split; intros x; (split; [by left |]); intros [?|H]; try done.
      - destruct H as (rest & H & _).
        rewrite H, HasPrefix_app in Hpre. done.
      - destruct H as (H & _).
        rewrite H, HasPrefix_app in Hpre. done. }
  apply HasPrefix_spec in Hpre as [rel Hrel]. rewrite Hrel, TrimPrefix_app.
  change (str ":") with [":"%char].
  destruct (Contains rel [":"%char]) eqn:Hc.
  - apply Contains_char, first_split in Hc as (d0 & r0 & -> & Hd0).
    rewrite SplitN2_char by done. cbn [head default fst snd].
    split; intros x.
    + rewrite elem_of_union, elem_of_singleton. split.
      * intros [->|?]; [right; by exists r0 | by left].
      * intros [?|(rest & Heq & Hx)]; [by right | left].
        apply app_inv_head in Heq.
        by destruct (first_split_inj _ _ _ _ _ Hd0 Hx Heq).
    + split; [by left |]. intros [?|(Heq & Hx & _)]; [done |].
      apply app_inv_head in Heq. subst x. set_solver.
  - apply Contains_char_false in Hc.
    assert (∀ x, (∃ rest, prefix ++ rel = prefix ++ x ++ ":"%char :: rest
                          ∧ ":"%char ∉ x) → False) as Hno.
    { intros x (rest & Heq & _). apply app_inv_head in Heq. set_solver. }
    case_bool_decide as Hnil; cbn [negb fst snd].
    + subst rel. split; intros x; (split; [by left |]); intros [?|H]; try done.
      * by destruct (Hno x).
      * destruct H as (Heq & _ & Hx). apply app_inv_head in Heq. by subst.
    + split; intros x.
      * split; [by left |]. intros [?|H]; [done | by destruct (Hno x)].
      * rewrite elem_of_union, elem_of_singleton. split.
        -- intros [->|?]; [by right | by left].
        -- intros [?|(Heq & _)]; [by right | left].
           by apply app_inv_head in Heq.
Qed.

Lemma ls_fold_spec (prefix : gostring) (items : list gostring) acc :
  (∀ d, d ∈ (fold_left (ls_step prefix) items acc).1 ↔
        d ∈ acc.1 ∨ ∃ path rest, path ∈ items
            ∧ file_part path = prefix ++ d ++ ":"%char :: rest ∧ ":"%char ∉ d)
  ∧ (∀ f, f ∈ (fold_left (ls_step prefix) items acc).2 ↔
        f ∈ acc.2 ∨ ∃ path, path ∈ items
            ∧ file_part path = prefix ++ f ∧ (":"%char ∉ f) ∧ f ≠ []).
Proof.
  revert acc. induction items as [|path items IH]; intros acc; simpl.
  - split; intros x; (split; [by left |]); intros [?|H]; try done.
    + destruct H as (? & ? & ?%elem_of_nil & _). done.
    + destruct H as (? & ?%elem_of_nil & _). done.
  - destruct (IH (ls_step prefix acc path)) as [IHd IHf].
    destruct (ls_step_spec prefix acc path) as [Sd Sf].
    split; intros x.
    + rewrite IHd, Sd. split.
      * intros [[?|(rest & ? & ?)]|(p & rest & ? & ?)]; [by left | |].
        -- right. exists path, rest. split; [left | done].
        -- right. exists p, rest. split; [by right | done].
      * intros [?|(p & rest & [->|?]%elem_of_cons & ?)].
        -- by left; left.
        -- left; right. by exists rest.
        -- right. by exists p, rest.
    + rewrite IHf, Sf. split.
      * intros [[?|?]|(p & ? & ?)]; [by left | |].
        -- right. exists path. split; [left | done].
        -- right. exists p. split; [by right | done].
      * intros [?|(p & [->|?]%elem_of_cons & ?)].
        -- by left; left.
        -- by left; right.
        -- right. by exists p.
Qed.

Lemma ls_Directories (items : list gostring) (target d : gostring) :
  d ∈ Directories (ls items target) ↔
  ∃ path rest, path ∈ items
    ∧ file_part path = ls_prefix target ++ d ++ ":"%char :: rest ∧ ":"%char ∉ d.
Proof.
  unfold ls, ls_sets; simpl. rewrite elem_of_elements.
  rewrite (proj1 (ls_fold_spec _ _ _)). simpl. set_solver.
Qed.

Lemma ls_Files (items : list gostring) (target f : gostring) :
  f ∈ Files (ls items target) ↔
  ∃ path, path ∈ items
    ∧ file_part path = ls_prefix target ++ f ∧ (":"%char ∉ f) ∧ f ≠ [].
Proof.
  unfold ls, ls_sets; simpl. rewrite elem_of_elements.
  rewrite (proj2 (ls_fold_spec _ _ _)). simpl. set_solver.
Qed.

Lemma well_formed_inv (path : gostring) :
  well_formed path = true →
  ∃ fp ds, path = fp ++ ":"%char :: ds ∧ (":"%char ∉ ds) ∧ file_part path = fp
           ∧ fp ≠ [] ∧ (∀ r, fp ≠ ":"%char :: r) ∧ (∀ r, fp ≠ r ++ [":"%char]).
Proof.
  unfold well_formed. rewrite !andb_true_iff, !negb_true_iff.
  intros [[Hpos%Z.ltb_lt Hhead] Hlast].
  destruct (LastIndex_pos ":"%char path) as (fp & ds & -> & Hds & Hlen);
    [unfold str in Hpos; simpl in Hpos; lia |].
  rewrite file_part_app in Hlast by done.
  exists fp, ds. split_and!; [done | done | by apply file_part_app | | |].
  - intros ->. unfold str in Hpos; simpl in *. rewrite Hlen in Hpos. simpl in Hpos. lia.
  - intros r ->. unfold str in Hhead. simpl in Hhead. done.
  - intros r ->. change (str ":") with [":"%char] in Hlast.
    by rewrite HasSuffix_app in Hlast.
Qed.

Section Traversal.
Variable items : list gostring.
Hypothesis items_wf : Forall (fun p => well_formed p = true) items.

Lemma item_file_part (path : gostring) :
  path ∈ items →
  file_part path ≠ [] ∧ (∀ r, file_part path ≠ ":"%char :: r)
  ∧ (∀ r, file_part path ≠ r ++ [":"%char]).
Proof.
  intros Hin. rewrite Forall_forall in items_wf.
  destruct (well_formed_inv path (items_wf _ Hin)) as (fp & ds & _ & _ & -> & ?).
  done.
Qed.

(** A subdirectory returned at the root is never the empty name, so
    descending into it always lengthens the prefix. *)
Lemma dir_target_nonempty (target d : gostring) :
  d ∈ Directories (ls items target) → join_target target d ≠ [].
Proof.
  intros (path & rest & Hin & Hfp & _)%ls_Directories.
  rewrite ls_prefix_join. intros [Hp ->]%app_eq_nil.
  rewrite Hp in Hfp. simpl in Hfp.
  by destruct (item_file_part path Hin) as (_ & Hhead & _), (Hhead rest).
Qed.

(** Everything the traversal reports under [target] is the file part of
    a snapshot entry and extends the prefix of [target]. *)
Lemma list_rec_sound (fuel : nat) (target fp : gostring) :
  fp ∈ list_rec fuel items target →
  (∃ path, path ∈ items ∧ file_part path = fp)
  ∧ ∃ rel, fp = ls_prefix target ++ rel.
Proof.
  revert target. induction fuel as [|n IH]; intros target; simpl.
  { by intros ?%elem_of_nil. }
  rewrite elem_of_app, list_elem_of_fmap, list_elem_of_bind.
  intros [(f & -> & Hf)|(d & Hrec & Hd)].
  - apply ls_Files in Hf as (path & Hin & Hfp & _).
    rewrite ls_prefix_join. split; [by exists path | by exists f].
  - destruct (IH _ Hrec) as [Hitem [rel ->]]. split; [done |].
    rewrite ls_prefix_extend by (by apply dir_target_nonempty).
    exists (d ++ str ":" ++ rel). by rewrite <- !app_assoc.
Qed.

Lemma list_rec_under_dir (n : nat) (target d fp : gostring) :
  d ∈ Directories (ls items target) →
  fp ∈ list_rec n items (join_target target d) →
  ∃ rel, fp = ls_prefix target ++ d ++ ":"%char :: rel.
Proof.
  intros Hd [_ [rel ->]]%list_rec_sound.
  rewrite ls_prefix_extend by (by apply dir_target_nonempty).
  exists rel. by rewrite <- !app_assoc.
Qed.

Lemma list_rec_complete (fuel : nat) (target path rel : gostring) :
  path ∈ items →
  file_part path = ls_prefix target ++ rel →
  rel ≠ [] →
  (length rel < fuel)%nat →
  file_part path ∈ list_rec fuel items target.
Proof.
  revert target rel. induction fuel as [|n IH]; intros target rel Hin Hfp Hrel Hlen;
    [lia |].
  simpl. rewrite elem_of_app, list_elem_of_fmap, list_elem_of_bind.
  destruct (decide (":"%char ∈ rel)) as [Hc|Hc].
  - right. apply first_split in Hc as (d & rest & -> & Hd).
    assert (d ∈ Directories (ls items target)) as Hdir.
    { apply ls_Directories. by exists path, rest. }
    exists d. split; [| done].
    apply (IH _ rest); [done | | |].
    + rewrite ls_prefix_extend by (by apply dir_target_nonempty).
      rewrite Hfp. by rewrite <- !app_assoc.
    + intros ->. destruct (item_file_part path Hin) as (_ & _ & Hlast).
      apply (Hlast (ls_prefix target ++ d)). by rewrite Hfp, <- app_assoc.
    + rewrite length_app in Hlen. simpl in Hlen. lia.
  - left. exists rel. split; [by rewrite ls_prefix_join |].
    apply ls_Files. by exists path.
Qed.

Lemma list_rec_NoDup (fuel : nat) (target : gostring) :
  NoDup (list_rec fuel items target).
Proof.
  revert target. induction fuel as [|n IH]; intros target; simpl.
  { constructor. }
  apply NoDup_app. split_and!.
  - apply NoDup_fmap_2_strong; [| apply NoDup_elements].
    intros x y _ _. rewrite !ls_prefix_join. apply app_inv_head.
  - intros fp (f & -> & Hf)%list_elem_of_fmap (d & Hrec & Hd)%list_elem_of_bind.
    apply ls_Files in Hf as (_ & _ & _ & Hf & _).
    destruct (list_rec_under_dir _ _ _ _ Hd Hrec) as [rel Heq].
    rewrite ls_prefix_join in Heq. apply app_inv_head in Heq. set_solver.
  - apply NoDup_bind; [| by intros | apply NoDup_elements].
    intros d1 d2 fp Hd1 Hd2 H1 H2.
    destruct (list_rec_under_dir _ _ _ _ Hd1 H1) as [r1 E1].
    destruct (list_rec_under_dir _ _ _ _ Hd2 H2) as [r2 E2].
    apply ls_Directories in Hd1 as (_ & _ & _ & _ & N1).
    apply ls_Directories in Hd2 as (_ & _ & _ & _ & N2).
    rewrite E1 in E2. apply app_inv_head in E2.
    by destruct (first_split_inj _ _ _ _ _ N1 N2 E2).
Qed.

End Traversal.

End ListingFacts.

Module ListingExamples.
Import GoStrings Listing Scenarios.

Example ls_host1 :
  ls index3 (str "host1") = {| Directories := []; Files := [str "cpu"] |}.
Proof. vm_compute. reflexivity. Qed.

Example search_used :
  search index3 (str "used") = [str "host1:cpu:used"; str "host2:mem:used"].
Proof. vm_compute. reflexivity. Qed.

Example list_rec_index3 :
  list_rec 5 index3 [] ≡ₚ [str "host1:cpu"; str "host2:mem"].
Proof. vm_compute. apply perm_swap. Qed.

End ListingExamples.

Module ListingClaims.
Import GoStrings GoStringsFacts Listing ListingFacts.

(** C10. A search whose target is the empty string returns the empty list
    whatever the snapshot holds; a non-empty target selects, in snapshot
    order, exactly the entries that contain it as a substring. *)
Theorem search_empty_target_returns_nothing (items : list gostring) :
  search items [] = []
  ∧ ∀ (c : ascii) (t path : gostring),
      path ∈ search items (c :: t) ↔
      path ∈ items ∧ ∃ a b, path = a ++ (c :: t) ++ b.
Proof.
  split; [done |]. intros c t path. unfold search. simpl.
  rewrite list_elem_of_filter, Contains_spec. tauto.
Qed.

(** C5 as stated does not hold: on the snapshot [host1:cpu:used] the
    traversal reports the file [host1:cpu] while [search] with the empty
    target reports nothing. *)
Lemma list_rec_search_counterexample :
  ¬ (∀ x : gostring,
       x ∈ list_rec 3 [str "host1:cpu:used"] [] ↔
       x ∈ search [str "host1:cpu:used"] []).
Proof.
  intros H. destruct (H (str "host1:cpu")) as [H1 _].
  assert (str "host1:cpu" ∈ list_rec 3 [str "host1:cpu:used"] []) as Hin
    by (vm_compute; left).
  apply H1 in Hin. vm_compute in Hin. by apply elem_of_nil in Hin.
Qed.

(** C5, amended.  For a snapshot of well-formed identifiers, listing the
    root and then every returned subdirectory in turn reports, without
    duplicates, exactly the file parts of the snapshot's identifiers (each
    identifier without its final datasource component); [search] with the
    empty target returns the empty list. *)
Theorem list_rec_enumerates_file_parts (items : list gostring) (fuel : nat) :
  Forall (fun p => well_formed p = true) items →
  Forall (fun p => (length p < fuel)%nat) items →
  NoDup (list_rec fuel items [])
  ∧ (∀ fp, fp ∈ list_rec fuel items [] ↔ ∃ p, p ∈ items ∧ file_part p = fp)
  ∧ search items [] = [].
Proof.
  intros Hwf Hfuel. split_and!; [by apply list_rec_NoDup | | done].
  intros fp. split.
  - by intros [? _]%list_rec_sound.
  - intros (p & Hin & <-).
    apply (list_rec_complete items Hwf fuel [] p (file_part p)); [done | done | |].
    + by destruct (item_file_part items Hwf p Hin).
    + rewrite Forall_forall in Hfuel. specialize (Hfuel p Hin).
      unfold file_part. rewrite length_take. lia.
Qed.

Lemma list_rec_enumerates_file_parts_witness :
  NoDup (list_rec 20 Scenarios.index3 [])
  ∧ (∀ fp, fp ∈ list_rec 20 Scenarios.index3 [] ↔
           ∃ p, p ∈ Scenarios.index3 ∧ file_part p = fp)
  ∧ search Scenarios.index3 [] = [].
Proof.
  apply list_rec_enumerates_file_parts.
  - repeat constructor.
  - repeat constructor; simpl; lia.
Defined.

End ListingClaims.

(** ** Reasoning about computations in [M] *)
Module Hoare.
Import Spec Backend.

Section Hoare.
Context `{Externals}.

Lemma wp_ret {A} (a : A) Q E w : Q a w → wp (mret a) Q E w.
Proof. done. Qed.

Lemma wp_bind {A B} (m : M A) (k : A → M B) Q E w :
  wp m (fun a => wp (k a) Q E) E w → wp (m ≫= k) Q E w.
Proof. unfold wp, mbind, M_bind, bind. by destruct (m w). Qed.

Lemma wp_mono {A} (m : M A) (Q Q' : A → World → Prop) (E E' : World → Prop) w :
  wp m Q E w → (∀ a w', Q a w' → Q' a w') → (∀ w', E w' → E' w') →
  wp m Q' E' w.
Proof. unfold wp. destruct (m w); eauto. Qed.

Lemma wp_panic {A} Q E w : E w → wp (@panic _ A) Q E w.
Proof. done. Qed.

Lemma wp_get_client Q E w : Q (rrdcachedClient w) w → wp get_client Q E w.
Proof. done. Qed.

Lemma wp_emit (e : Event) Q E w :
  Q tt (mkWorld (rrdcachedClient w) (searchCache_items w) (ext w) (trace w ++ [e])) →
  wp (emit e) Q E w.
Proof. done. Qed.

Lemma wp_set_client c Q E w :
  Q tt (mkWorld c (searchCache_items w) (ext w) (trace w)) →
  wp (set_client c) Q E w.
Proof. done. Qed.

Lemma wp_set_items items Q E w :
  Q tt (mkWorld (rrdcachedClient w) items (ext w) (trace w)) →
  wp (set_items items) Q E w.
Proof. done. Qed.

Lemma wp_call {A} (f : Ext → A * Ext) Q E w :
  (∀ a x, f (ext w) = (a, x) →
          Q a (mkWorld (rrdcachedClient w) (searchCache_items w) x (trace w))) →
  wp (call f) Q E w.
Proof.
  intros HQ. unfold wp, call. destruct (f (ext w)) as [a x] eqn:Hf. by apply HQ.
Qed.

Lemma wp_observe {A} (f : Ext → A) Q E w : Q (f (ext w)) w → wp (observe f) Q E w.
Proof. done. Qed.

Lemma wp_returns {A} (m : M A) Q w :
  wp m Q (fun _ => False) w ↔ ∃ a w', m w = Ok a w' ∧ Q a w'.
Proof.
  unfold wp. destruct (m w) as [a w'|w'].
  - split; [eauto |]. by intros (? & ? & [= <- <-] & ?).
  - split; [done |]. by intros (? & ? & ? & _).
Qed.

End Hoare.

(** One step of a [wp] proof. *)
Ltac wp_step :=
  lazymatch goal with
  | |- wp (mbind _ _) _ _ _ => apply wp_bind
  | |- wp (mret _) _ _ _ => apply wp_ret
  | |- wp get_client _ _ _ => apply wp_get_client
  | |- wp (emit _) _ _ _ => apply wp_emit
  | |- wp (set_client _) _ _ _ => apply wp_set_client
  | |- wp (set_items _) _ _ _ => apply wp_set_items
  | |- wp (observe _) _ _ _ => apply wp_observe
  | |- wp (call _) _ _ _ => apply wp_call; intros ? ? ?
  | |- wp panic _ _ _ => apply wp_panic
  end.

End Hoare.

(** ** The resilient fetch *)
Module FetcherFacts.
Import Spec GoStrings GoTime Backend Fetcher Hoare.

#[local] Arguments str : simpl never.
#[local] Arguments HasPrefix : simpl never.
#[local] Arguments TrimPrefix : simpl never.
#[local] Arguments Contains : simpl never.
#[local] Arguments transient : simpl never.

Section Facts.
Context `{Externals}.

Lemma recreate_spec (w : World) :
  wp recreateRRDCachedClient (fun _ w' => grows w [] w') (fun _ => False) w.
Proof.
  unfold recreateRRDCachedClient, grows.
  repeat wp_step.
  destruct (rrdcachedClient w); repeat wp_step; simpl;
    destruct (HasPrefix (RrdCached config) (str "unix:")); repeat wp_step;
    simpl; by rewrite app_nil_r.
Qed.

Lemma fetch_attempt_spec (k : nat) (filePath cf : gostring) (s e : Z) (w : World) :
  wp (fetch_attempt (Z.of_nat k) filePath cf s e)
     (fun r w' => grows w (attempt_events filePath cf s e k (outcome r)) w')
     (fun _ => False) w.
Proof.
  unfold fetch_attempt, attempt_events, grows. wp_step.
  assert (∀ w0 : World,
    grows w (if k is O then [] else [EvSleep (Z.of_nat k * Z.of_nat k * Second)]) w0 →
    wp (c ← get_client;
        emit (EvFetch filePath cf s e);;
        r ← call (client_Fetch c filePath cf s e);
        match r with
        | inl _ => mret r
        | inr err =>
            emit (EvFetchFailed (Z.of_nat k + 1) err);;
            (if transient err
             then emit EvReconnect;; recreateRRDCachedClient;; mret tt
             else mret tt);;
            mret r
        end)
       (fun r w' => grows w (attempt_events filePath cf s e k (outcome r)) w')
       (fun _ => False) w0) as Hbody.
  { intros w0 [Ht Hi]. unfold grows, attempt_events. repeat wp_step.
    destruct a as [f|err]; repeat wp_step.
    - simpl. rewrite Ht, <- !app_assoc. done.
    - destruct (transient err) eqn:Htr; repeat wp_step.
      + eapply wp_mono; [apply recreate_spec | | done].
        intros _ w' [Ht' Hi']. repeat wp_step. simpl in *. rewrite Ht', Hi'.
        rewrite Htr, Ht, app_nil_r, <- !app_assoc. done.
      + simpl. rewrite Htr, Ht, <- !app_assoc. done. }
  destruct k as [|k].
  - simpl. wp_step. apply Hbody. split; [by rewrite app_nil_r | done].
  - destruct (Z.ltb_spec 0 (Z.of_nat (S k))); [| lia].
    wp_step. apply Hbody. split; done.
Qed.

Lemma fetch_loop_S (n : nat) (attempt : Z) (filePath cf : gostring) (s e : Z)
    (cur : option (DaemonFetch + error)) :
  fetch_loop (S n) attempt filePath cf s e cur =
  (r ← fetch_attempt attempt filePath cf s e;
   match r with
   | inl _ => mret (Some r)
   | inr _ => fetch_loop n (attempt + 1) filePath cf s e (Some r)
   end).
Proof. done. Qed.

Lemma fetch_loop_spec (n k : nat) (filePath cf : gostring) (s e : Z)
    (cur : option (DaemonFetch + error)) (w : World) :
  wp (fetch_loop (S n) (Z.of_nat k) filePath cf s e cur)
     (fun res w' =>
        ∃ (errs : list error) (final : option error) r,
          res = Some r
          ∧ grows w (mjoin (imap (fun j => attempt_events filePath cf s e (k + j))
                                 ((Some <$> errs) ++ [final]))) w'
          ∧ (length errs ≤ n)%nat
          ∧ match r with
            | inl _ => final = None
            | inr err => final = Some err ∧ length errs = n
            end)
     (fun _ => False) w.
Proof.
  revert k cur w. induction n as [|n IH]; intros k cur w;
    rewrite fetch_loop_S; wp_step;
    (eapply wp_mono; [apply fetch_attempt_spec | | done]);
    intros r w1 [Ht Hi].
  - assert (grows w (mjoin (imap (fun j => attempt_events filePath cf s e (k + j))
                                 ((Some <$> []) ++ [outcome r]))) w1) as Hg.
    { split; [| done]. simpl. by rewrite Nat.add_0_r, app_nil_r. }
    destruct r as [f|err]; cbn [fetch_loop]; wp_step.
    + by exists [], None, (inl f).
    + by exists [], (Some err), (inr err).
  - destruct r as [f|err]; [wp_step |].
    + exists [], None, (inl f). split_and!; [done | | simpl; lia | done].
      split; [| done]. simpl. by rewrite Nat.add_0_r, app_nil_r.
    + replace (Z.of_nat k + 1) with (Z.of_nat (S k)) by lia.
      eapply wp_mono; [apply (IH (S k)) | | done].
      intros res w' (errs & final & r & -> & [Ht' Hi'] & Hlen & Hr).
      exists (err :: errs), final, r. split_and!; [done | | simpl; lia |].
      * split; [| congruence].
        rewrite Ht', Ht. simpl. rewrite Nat.add_0_r, <- !app_assoc.
        do 3 f_equal. apply imap_ext. intros j o _. simpl.
        by replace (k + S j)%nat with (S k + j)%nat by lia.
      * destruct r; [done |]. destruct Hr as [-> <-]. done.
Qed.

(** The daemon path of [fetchRRDData]: a flush, then between one and
    three attempts of which only the last can have succeeded. *)
Lemma fetchRRDData_daemon_spec (filePath cf : gostring) (start end_ : Time)
    (step : Duration) (w : World) (c : Conn) :
  rrdcachedClient w = Some c →
  wp (fetchRRDData filePath cf start end_ step)
     (fun r w' =>
        ∃ (errs : list error) (final : option error),
          grows w (EvFlush filePath
                   :: mjoin (imap (attempt_events filePath cf (Unix start) (Unix end_))
                                  ((Some <$> errs) ++ [final]))) w'
          ∧ (length errs ≤ 2)%nat
          ∧ match r with
            | inl fd => final = None
                         ∧ Z.of_nat (length (points fd)) = rowCnt fd
            | inr err => final = Some err ∧ length errs = 2%nat
            end)
     (fun _ => False) w.
Proof.
  intros Hc. unfold fetchRRDData. wp_step. wp_step. rewrite Hc.
  repeat wp_step.
  eapply wp_mono; [apply (fetch_loop_spec 2 0) | | done].
  intros res w' (errs & final & r & -> & [Ht Hi] & Hlen & Hr). simpl in *.
  assert (grows w (EvFlush filePath
            :: mjoin (imap (attempt_events filePath cf (Unix start) (Unix end_))
                           ((Some <$> errs) ++ [final]))) w') as Hg.
  { split; [| done]. rewrite Ht, <- app_assoc. done. }
  destruct r as [fetch|err]; wp_step; exists errs, final;
    (split; [done |]); (split; [done |]); [| done].
  split; [done |]. simpl. unfold daemon_points. by rewrite length_fmap.
Qed.

(** The local path returns as many rows as it reports. *)
Lemma fetchRRDData_local_spec (filePath cf : gostring) (start end_ : Time)
    (step : Duration) (w : World) :
  rrdcachedClient w = None →
  wp (fetchRRDData filePath cf start end_ step)
     (fun r w' =>
        grows w [] w'
        ∧ match r with
          | inl fd => Z.of_nat (length (points fd)) = rowCnt fd
          | inr _ => True
          end)
     (fun w' => grows w [] w') w.
Proof.
  intros Hc. unfold fetchRRDData, grows. wp_step. wp_step. rewrite Hc.
  repeat wp_step. simpl.
  destruct a as [fetchRes|err]; [| wp_step; by rewrite app_nil_r].
  destruct (Z.ltb_spec (RowCnt fetchRes) 0); wp_step; simpl;
    rewrite app_nil_r; [done |].
  split; [done |]. unfold local_points. rewrite length_fmap, length_seq. lia.
Qed.

End Facts.

Import Scenarios.

Example flaky_trace :
  trace (res_world (@fetchRRDData flaky_daemon (str "/rrd/a.rrd") (str "AVERAGE")
                      (time_Unix 0) (time_Unix 100) (10 * Second)
                      (world0 flaky_daemon (Some tt) 0%nat)))
  = [EvFlush (str "/rrd/a.rrd");
     EvFetch (str "/rrd/a.rrd") (str "AVERAGE") 0 100;
     EvFetchFailed 1 (str "read unix: i/o timeout");
     EvReconnect;
     EvSleep (1 * Second);
     EvFetch (str "/rrd/a.rrd") (str "AVERAGE") 0 100;
     EvFetchFailed 2 (str "read unix: i/o timeout");
     EvReconnect;
     EvSleep (4 * Second);
     EvFetch (str "/rrd/a.rrd") (str "AVERAGE") 0 100].
Proof. vm_compute. reflexivity. Qed.

Example dead_result :
  ∃ w', @fetchRRDData dead_daemon (str "/rrd/a.rrd") (str "AVERAGE")
          (time_Unix 0) (time_Unix 100) (10 * Second)
          (world0 dead_daemon (Some tt) 0%nat)
        = Ok (inr (str "connection refused2")) w'.
Proof. eexists. vm_compute. reflexivity. Qed.

End FetcherFacts.

Module FetcherClaims.
Import Spec GoStrings GoTime Backend Fetcher Hoare FetcherFacts Scenarios.



End FetcherClaims.

(** ** The projection of fetched rows into datapoints *)
Module ProjectionFacts.
Import Spec GoStrings GoTime Backend Fetcher Query.

Lemma row_point_shift (dsIndex multiplier : Z) (ts : Time) (fetchStep : Duration)
    (k : nat) (row : list float) :
  row_point dsIndex multiplier ts fetchStep (S k) row
  = row_point dsIndex multiplier (Add ts fetchStep) fetchStep k row.
Proof.
  unfold row_point, Add.
  by replace (ts + Z.of_nat (S k) * fetchStep)
    with (ts + fetchStep + Z.of_nat k * fetchStep) by lia.
Qed.

Lemma project_loop_spec (n i : nat) (fetchData : list (list float))
    (dsIndex multiplier : Z) (fetchStep : Duration) (ts : Time)
    (pts : list (list float)) :
  0 <= dsIndex →
  (i + n ≤ length fetchData)%nat →
  project_loop n i fetchData dsIndex multiplier fetchStep ts pts
  = Some (pts ++ mjoin (imap (row_point dsIndex multiplier ts fetchStep)
                             (take n (drop i fetchData)))).
Proof.
  intros Hds. revert i ts pts. induction n as [|n IH]; intros i ts pts Hlen.
  - simpl. by rewrite app_nil_r.
  - assert (is_Some (fetchData !! i)) as [row Hrow] by (apply lookup_lt_is_Some; lia).
    cbn [project_loop]. rewrite Hrow.
    rewrite (drop_S _ _ _ Hrow). cbn [take imap mjoin list_join].
    rewrite (imap_ext _ (row_point dsIndex multiplier (Add ts fetchStep) fetchStep))
      by (intros; apply row_point_shift).
    assert (row_point dsIndex multiplier ts fetchStep 0 row
            = match row !! Z.to_nat dsIndex with
              | Some value =>
                  if PrimFloat.is_nan value then []
                  else [[PrimFloat.mul (float64_of_int multiplier) value;
                         PrimFloat.mul (float64_of_int (Unix ts)) 1000]]
              | None => []
              end) as ->.
    { unfold row_point. by replace (ts + Z.of_nat 0 * fetchStep) with ts by lia. }
    destruct (Z.ltb_spec dsIndex (Z.of_nat (length row))) as [Hlt|Hge].
    + destruct (Z.ltb_spec dsIndex 0); [lia |].
      assert (is_Some (row !! Z.to_nat dsIndex)) as [value Hv]
        by (apply lookup_lt_is_Some; lia).
      rewrite Hv. destruct (PrimFloat.is_nan value); simpl.
      * rewrite IH by lia. done.
      * rewrite IH by lia. by rewrite <- app_assoc.
    + rewrite (lookup_ge_None_2 row) by lia. simpl. rewrite IH by lia. done.
Qed.

(** [project] in closed form, for a result whose row count is the number of
    its rows (which [fetchRRDData] ensures). *)
Lemma project_spec (fd : FetchData) (dsIndex multiplier : Z) :
  0 <= dsIndex →
  Z.of_nat (length (points fd)) = rowCnt fd →
  project fd dsIndex multiplier
  = Some (mjoin (imap (row_point dsIndex multiplier (start fd) (step fd))
                      (take (Z.to_nat (rowCnt fd - 1)) (points fd)))).
Proof.
  intros Hds Hlen. unfold project.
  rewrite project_loop_spec by (simpl; lia). by rewrite drop_0.
Qed.

End ProjectionFacts.

Module ProjectionClaims.
Import Spec GoStrings GoTime Backend Fetcher Query ProjectionFacts Scenarios.

Example project_fd4 :
  project fd4 0 10 = Some [[25%float; 100000%float]; [70%float; 120000%float]].
Proof. vm_compute. reflexivity. Qed.

(** C3. The final row of a fetch is never projected: the datapoints are
    those of the rows before it, and they stay the same when the final row
    is replaced by any other, a valid number included. *)
Theorem final_row_never_projected (fd : FetchData) (dsIndex multiplier : Z)
    (rows : list (list float)) (final final' : list float) :
  0 <= dsIndex →
  points fd = rows ++ [final] →
  rowCnt fd = Z.of_nat (length (rows ++ [final])) →
  project fd dsIndex multiplier
  = Some (mjoin (imap (row_point dsIndex multiplier (start fd) (step fd)) rows))
  ∧ project (mkFetchData (rows ++ [final']) (names fd) (start fd) (step fd) (rowCnt fd))
      dsIndex multiplier
    = project fd dsIndex multiplier.
Proof.
  intros Hds Hpts Hcnt.
  assert (Z.to_nat (rowCnt fd - 1) = length rows) as Hn
    by (rewrite Hcnt, length_app; simpl; lia).
  rewrite !project_spec; try done.
  - simpl. rewrite Hpts, Hn, !take_app_length. done.
  - simpl. rewrite Hcnt, !length_app. done.
  - by rewrite Hpts.
Qed.

Lemma final_row_never_projected_witness :
  0 <= 0
  ∧ points fd4 = [[2.5%float]; [PrimFloat.nan]; [7%float]] ++ [[9%float]]
  ∧ rowCnt fd4 = Z.of_nat (length ([[2.5%float]; [PrimFloat.nan]; [7%float]] ++ [[9%float]]))
  ∧ project fd4 0 10
    = Some (mjoin (imap (row_point 0 10 (start fd4) (step fd4))
                        [[2.5%float]; [PrimFloat.nan]; [7%float]]))
  ∧ project (mkFetchData ([[2.5%float]; [PrimFloat.nan]; [7%float]] ++ [[1%float]])
               (names fd4) (start fd4) (step fd4) (rowCnt fd4)) 0 10
    = project fd4 0 10.
Proof.
  split; [lia |]. split; [reflexivity |]. split; [reflexivity |].
  apply (final_row_never_projected fd4 0 10 _ [9%float] [1%float]);
    [lia | reflexivity | reflexivity].
Defined.

(** C4. Among the rows before the final one, a row whose value in the
    datasource column is NaN yields no datapoint, and every other row that
    has the column yields exactly [multiplier * value] paired with the row's
    time in seconds times 1000; nothing else is in the output. *)
Theorem datapoints_scaled_and_nan_dropped (fd : FetchData) (dsIndex multiplier : Z) :
  0 <= dsIndex →
  Z.of_nat (length (points fd)) = rowCnt fd →
  ∃ out,
    project fd dsIndex multiplier = Some out
    ∧ ∀ pt, pt ∈ out ↔
        ∃ (i : nat) (row : list float) (value : float),
          Z.of_nat i < rowCnt fd - 1
          ∧ points fd !! i = Some row
          ∧ row !! Z.to_nat dsIndex = Some value
          ∧ PrimFloat.is_nan value = false
          ∧ pt = [PrimFloat.mul (float64_of_int multiplier) value;
                  PrimFloat.mul
                    (float64_of_int (Unix (start fd + Z.of_nat i * step fd))) 1000].
Proof.
  intros Hds Hlen. eexists. split; [by apply project_spec |].
  intros pt. rewrite list_elem_of_join. split.
  - intros (l & Hpt & (i & row & -> & Hrow)%elem_of_lookup_imap).
    apply lookup_take_Some in Hrow as [Hrow Hi].
    unfold row_point in Hpt. destruct (row !! Z.to_nat dsIndex) as [value|] eqn:Hv;
      [| by apply elem_of_nil in Hpt].
    destruct (PrimFloat.is_nan value) eqn:Hnan; [by apply elem_of_nil in Hpt |].
    apply list_elem_of_singleton in Hpt as ->.
    exists i, row, value. split_and!; [lia | done..].
  - intros (i & row & value & Hi & Hrow & Hv & Hnan & ->).
    exists (row_point dsIndex multiplier (start fd) (step fd) i row). split.
    + unfold row_point. rewrite Hv, Hnan. by apply list_elem_of_singleton.
    + apply elem_of_lookup_imap. exists i, row. split; [done |].
      apply lookup_take_Some. split; [done | lia].
Qed.

Lemma datapoints_scaled_and_nan_dropped_witness :
  0 <= 0
  ∧ Z.of_nat (length (points fd4)) = rowCnt fd4
  ∧ ∃ out,
      project fd4 0 10 = Some out
      ∧ ∀ pt, pt ∈ out ↔
          ∃ (i : nat) (row : list float) (value : float),
            Z.of_nat i < rowCnt fd4 - 1
            ∧ points fd4 !! i = Some row
            ∧ row !! Z.to_nat 0 = Some value
            ∧ PrimFloat.is_nan value = false
            ∧ pt = [PrimFloat.mul (float64_of_int 10) value;
                    PrimFloat.mul
                      (float64_of_int (Unix (start fd4 + Z.of_nat i * step fd4))) 1000].
Proof.
  split; [lia |]. split; [reflexivity |].
  apply (datapoints_scaled_and_nan_dropped fd4 0 10); [lia | reflexivity].
Defined.

End ProjectionClaims.

(** ** The query planner *)
Module QueryFacts.
Import Spec GoStrings GoTime Backend Fetcher Query Hoare FetcherFacts.

#[local] Arguments str : simpl never.
#[local] Arguments HasPrefix : simpl never.
#[local] Arguments Contains : simpl never.
#[local] Arguments wrap64 : simpl never.
#[local] Arguments Z.mul : simpl never.

Lemma clamp_replay_app (from to : Time) (tr1 tr2 : list Event) :
  clamp_replay from to (tr1 ++ tr2)
  = clamp_replay from to tr1 ≫= fun to' => clamp_replay from to' tr2.
Proof.
  revert to. induction tr1 as [|e tr1 IH]; intros to; [done |].
  destruct e as [| | | | | |path s e]; simpl; try apply IH.
  destruct ((s =? from) && (e =? to)); [apply IH | done].
Qed.

Lemma clamp_replay_fetch_events (from to : Time) (tr : list Event) :
  Forall fetch_event tr → clamp_replay from to tr = Some to.
Proof.
  induction 1 as [|e tr He _ IH]; [done |]. by destruct e.
Qed.

Lemma attempt_events_fetch (filePath cf : gostring) (s e : Z) (k : nat)
    (o : option error) :
  Forall fetch_event (attempt_events filePath cf s e k o).
Proof.
  unfold attempt_events. repeat apply Forall_app_2.
  - destruct k; repeat constructor.
  - repeat constructor.
  - destruct o as [err|]; [| constructor].
    constructor; [done |]. destruct (transient err); repeat constructor.
Qed.

Section Facts.
Context `{Externals}.

(** [fetchRRDData], on either path, adds only events of the fetch. *)
Lemma fetchRRDData_events (filePath cf : gostring) (start end_ : Time)
    (step : Duration) (w : World) :
  wp (fetchRRDData filePath cf start end_ step)
     (fun _ w' => ∃ evs, trace w' = trace w ++ evs ∧ Forall fetch_event evs)
     (fun w' => ∃ evs, trace w' = trace w ++ evs ∧ Forall fetch_event evs) w.
Proof.
  destruct (rrdcachedClient w) as [c|] eqn:Hc.
  - eapply wp_mono;
      [apply (fetchRRDData_daemon_spec filePath cf start end_ step w c Hc) | | done].
    intros r w' (errs & final & [Ht _] & _). eexists. split; [exact Ht |].
    constructor; [done |]. apply Forall_forall. intros ev.
    rewrite list_elem_of_join.
    intros (l & Hev & (i & o & -> & _)%elem_of_lookup_imap).
    revert ev Hev. apply Forall_forall, attempt_events_fetch.
  - eapply wp_mono;
      [apply (fetchRRDData_local_spec filePath cf start end_ step w Hc) | |].
    + intros r w' [[Ht _] _]. by exists [].
    + intros w' [Ht _]. by exists [].
Qed.

(** The Info step adds no event. *)
Lemma file_info_events (ds filePath : gostring) (w : World) :
  wp (file_info ds filePath) (fun _ w' => trace w' = trace w)
     (fun w' => trace w' = trace w) w.
Proof.
  unfold file_info. wp_step. wp_step.
  destruct (rrdcachedClient w); repeat wp_step.
  - destruct a; by wp_step.
  - destruct a as [infoRes|]; [| by wp_step].
    destruct (ds_index infoRes !! ds); by wp_step.
Qed.

(** One file: the trace grows by events that replay from the end time on
    entry to the end time on exit. *)
Lemma query_file_replay (ds : gostring) (from : Time)
    (st : Time * list QueryResponse) (filePath : gostring) (w : World) :
  wp (query_file ds from st filePath)
     (fun st' w' => ∃ evs, trace w' = trace w ++ evs
                           ∧ clamp_replay from st.1 evs = Some st'.1)
     (fun w' => ∃ evs, trace w' = trace w ++ evs
                       ∧ is_Some (clamp_replay from st.1 evs)) w.
Proof.
  unfold query_file. repeat wp_step.
  destruct a as [statErr|]; [wp_step; exists []; by rewrite app_nil_r |].
  wp_step.
  eapply wp_mono; [apply file_info_events | |];
    [| intros w' Ht; exists []; by rewrite app_nil_r].
  intros info w1 Ht1. simpl in Ht1.
  destruct info as [[lastUpdate dsIndex]|];
    [| wp_step; exists []; by rewrite app_nil_r].
  repeat wp_step.
  pose (evs0 := [EvLastUpdate filePath lastUpdate;
                 EvFetchRRDData filePath from (clamp from st.1 lastUpdate)]).
  assert (clamp_replay from st.1 evs0 = Some (clamp from st.1 lastUpdate)) as Hr0.
  { simpl. by rewrite !Z.eqb_refl. }
  eapply wp_mono; [apply fetchRRDData_events | |]; simpl.
  - intros r w2 (evs & Ht2 & Hevs).
    assert (trace w2 = trace w ++ evs0 ++ evs) as Ht.
    { rewrite Ht2, Ht1. unfold evs0. by rewrite <- !app_assoc. }
    assert (clamp_replay from st.1 (evs0 ++ evs) = Some (clamp from st.1 lastUpdate))
      as Hr.
    { rewrite clamp_replay_app, Hr0. simpl. by apply clamp_replay_fetch_events. }
    destruct r as [fd|err]; [| wp_step; by exists (evs0 ++ evs)].
    repeat wp_step.
    destruct (project fd _ _); wp_step; exists (evs0 ++ evs);
      (split; [done |]); [done | by rewrite Hr].
  - intros w2 (evs & Ht2 & Hevs). exists (evs0 ++ evs). split.
    + rewrite Ht2, Ht1. unfold evs0. by rewrite <- !app_assoc.
    + rewrite clamp_replay_app, Hr0. simpl.
      by rewrite clamp_replay_fetch_events.
Qed.

(** A loop whose body replays, replays. *)
Lemma foldM_replay {B} (f : Time * list QueryResponse → B → M (Time * list QueryResponse))
    (from : Time) (l : list B) :
  (∀ st x w,
     wp (f st x)
        (fun st' w' => ∃ evs, trace w' = trace w ++ evs
                              ∧ clamp_replay from st.1 evs = Some st'.1)
        (fun w' => ∃ evs, trace w' = trace w ++ evs
                          ∧ is_Some (clamp_replay from st.1 evs)) w) →
  ∀ st w,
    wp (foldM f st l)
       (fun st' w' => ∃ evs, trace w' = trace w ++ evs
                             ∧ clamp_replay from st.1 evs = Some st'.1)
       (fun w' => ∃ evs, trace w' = trace w ++ evs
                         ∧ is_Some (clamp_replay from st.1 evs)) w.
Proof.
  intros Hf. induction l as [|x l IH]; intros st w; simpl.
  - wp_step. exists []. by rewrite app_nil_r.
  - wp_step. eapply wp_mono; [apply Hf | | done].
    intros st1 w1 (evs1 & Ht1 & Hr1).
    eapply wp_mono; [apply IH | |].
    + intros st2 w2 (evs2 & Ht2 & Hr2). exists (evs1 ++ evs2).
      split; [by rewrite Ht2, Ht1, <- app_assoc |].
      by rewrite clamp_replay_app, Hr1.
    + intros w2 (evs2 & Ht2 & Hr2). exists (evs1 ++ evs2).
      split; [by rewrite Ht2, Ht1, <- app_assoc |].
      by rewrite clamp_replay_app, Hr1.
Qed.

Lemma query_target_replay (from : Time) (st : Time * list QueryResponse)
    (target : gostring) (w : World) :
  wp (query_target from st target)
     (fun st' w' => ∃ evs, trace w' = trace w ++ evs
                           ∧ clamp_replay from st.1 evs = Some st'.1)
     (fun w' => ∃ evs, trace w' = trace w ++ evs
                       ∧ is_Some (clamp_replay from st.1 evs)) w.
Proof.
  unfold query_target. destruct (fileSearchPath target) as [pattern|].
  - repeat wp_step.
    eapply wp_mono; [apply (foldM_replay _ from), query_file_replay | |];
      intros; done.
  - wp_step. exists []. by rewrite app_nil_r.
Qed.

End Facts.
End QueryFacts.

Module QueryExamples.
Import GoStrings GoTime Backend Fetcher Query Scenarios.

Example two_files_pattern :
  @fileSearchPath two_files (str "*:used") = Some (str "/rrd/*.rrd").
Proof. vm_compute. reflexivity. Qed.

Example two_files_query :
  ∃ w', @query two_files (time_Unix 0) (time_Unix 100) [str "*:used"]
          (world0 two_files None 0%nat)
        = Ok [mkQueryResponse (str ":a:used") [[25%float; 0%float]];
              mkQueryResponse (str ":b:used") [[25%float; 0%float]]] w'.
Proof. eexists. vm_compute. reflexivity. Qed.

Example four_files_query :
  ∃ w', @query four_files (time_Unix 0) (time_Unix 100) [str "none:used"; str "*:used"]
          (world0 four_files None 0%nat)
        = Ok [mkQueryResponse (str ":a:used") [[25%float; 0%float]];
              mkQueryResponse (str ":b:used") [[25%float; 0%float]]] w'.
Proof. eexists. vm_compute. reflexivity. Qed.

End QueryExamples.

Module QueryClaims.
Import Spec GoStrings GoTime Backend Fetcher Query Hoare FetcherFacts QueryFacts Scenarios.

#[local] Arguments str : simpl never.
#[local] Arguments wrap64 : simpl never.
#[local] Arguments Z.mul : simpl never.

Section Results.
Context `{Externals}.




End Results.


(** C2 fails on the second file of a request: with [from] = 0s and [to] =
    100s, the file [b], last updated at 80s, is fetched up to 50s, the last
    update of the file [a] before it, although the requested [to] is after
    80s and [from] before it. *)
Theorem second_file_fetched_with_clamped_end :
  trace (res_world (@query two_files (time_Unix 0) (time_Unix 100) [str "*:used"]
                      (world0 two_files None 0%nat)))
  = [EvLastUpdate (str "/rrd/a.rrd") (time_Unix 50);
     EvFetchRRDData (str "/rrd/a.rrd") (time_Unix 0) (time_Unix 50);
     EvLastUpdate (str "/rrd/b.rrd") (time_Unix 80);
     EvFetchRRDData (str "/rrd/b.rrd") (time_Unix 0) (time_Unix 50)]
  ∧ After (time_Unix 100) (time_Unix 80) = true
  ∧ After (time_Unix 80) (time_Unix 0) = true
  ∧ time_Unix 50 ≠ time_Unix 80.
Proof. vm_compute. split_and!; done. Qed.



End QueryClaims.

(** ** The namespace index *)
Module CacheFacts.
Import Spec GoStrings GoStringsFacts GoTime Backend Cache Hoare Scenarios.

#[local] Arguments str : simpl never.
#[local] Arguments HasPrefix : simpl never.
#[local] Arguments Contains : simpl never.
#[local] Arguments fName_of : simpl never.

Lemma fName_of_plain (rel : gostring) :
  plain_rel rel = true →
  Replace (fName_of rel) (str ":") (str "/") (-1) ++ str ".rrd" = rel.
Proof.
  unfold plain_rel. rewrite !andb_true_iff, negb_true_iff, Z.eqb_eq, Z.leb_le.
  intros [[Hcolon%Contains_char_false Hpos] Hidx].
  pose proof (Index_found rel (str ".rrd") Hpos) as Hsplit.
  set (i := Z.to_nat (Index rel (str ".rrd"))) in *.
  assert (drop (i + length (str ".rrd")) rel = []) as Hdrop.
  { apply drop_ge. change (length (str ".rrd")) with 4%nat. lia. }
  rewrite Hdrop, app_nil_r in Hsplit.
  unfold fName_of. rewrite Replace_first by done.
  fold i. rewrite Hdrop, !app_nil_r.
  change (str "/") with ["/"%char]. change (str ":") with [":"%char].
  rewrite Replace_byte_back.
  - by rewrite <- Hsplit.
  - intros Hin. apply Hcolon. rewrite Hsplit. set_solver.
Qed.

Section Facts.
Context `{Externals}.

Lemma walkFn_spec (newItems : list gostring) (v : Visit) (w : World) :
  wp (walkFn newItems v)
     (fun r w' =>
        searchCache_items w' = searchCache_items w
        ∧ r.2 = v_err v
        ∧ ∀ item, item ∈ r.1 → item ∈ newItems ∨ made_for item v)
     (fun _ => False) w.
Proof.
  unfold walkFn.
  destruct (v_err v) as [err|];
    [wp_step; split_and!; [done | done | intros; by left] |].
  destruct (v_isDir v) eqn:Hdir; cbn [orb];
    [wp_step; split_and!; [done | done | intros; by left] |].
  destruct (Contains (v_name v) (str ".rrd")) eqn:Hname; cbn [negb];
    [| wp_step; split_and!; [done | done | intros; by left]].
  wp_step. wp_step. wp_step.
  assert (∀ (dsIndex : option (gset gostring)) (w0 : World),
            searchCache_items w0 = searchCache_items w →
            wp (match dsIndex return M (list gostring * option error) with
                | None => mret (newItems, None)
                | Some dsIndex =>
                    mret (newItems
                          ++ ((fun ds => fName_of (filepath_Rel (RrdPath config) (v_path v))
                                         ++ str ":" ++ ds) <$> elements dsIndex),
                          None)
                end)
               (fun r w' =>
                  searchCache_items w' = searchCache_items w
                  ∧ r.2 = None
                  ∧ ∀ item, item ∈ r.1 → item ∈ newItems ∨ made_for item v)
               (fun _ => False) w0) as Hend.
  { intros [dsIndex|] w0 Hw0; wp_step;
      [| split_and!; [done | done | intros; by left]].
    split_and!; [done | done |]. intros item [?|Hin]%elem_of_app; [by left |].
    right. apply list_elem_of_fmap in Hin as (ds & -> & _).
    split_and!; [done | done | by exists ds]. }
  destruct (rrdcachedClient w); repeat wp_step; by apply Hend.
Qed.

Lemma walk_spec (visits : list Visit) (newItems : list gostring) (w : World) :
  wp (walk visits newItems)
     (fun r w' =>
        searchCache_items w' = searchCache_items w
        ∧ (Forall (fun v => v_err v = None) visits → r.2 = None)
        ∧ (Exists (fun v => v_err v ≠ None) visits → r.2 ≠ None)
        ∧ ∀ item, item ∈ r.1 →
                  item ∈ newItems ∨ ∃ v, v ∈ visits ∧ made_for item v)
     (fun _ => False) w.
Proof.
  revert newItems w. induction visits as [|v visits IH]; intros newItems w; simpl.
  - wp_step. split_and!; [done | done | by intros ?%Exists_nil | by left].
  - wp_step. eapply wp_mono; [apply walkFn_spec | | done].
    intros [items1 e1] w1 (Hi1 & He1 & Hm1). simpl in *.
    destruct e1 as [err|].
    + wp_step. simpl. split_and!; [done | | done |].
      * intros Hall. apply Forall_cons in Hall as [Hv _]. congruence.
      * intros item [?|?]%Hm1; [by left | right]. exists v. split; [left | done].
    + eapply wp_mono; [apply IH | | done].
      intros [items2 e2] w2 (Hi2 & Hok & Hbad & Hm2). simpl in *.
      split_and!; [congruence | | |].
      * intros Hall. apply Forall_cons in Hall as [_ Hall]. by apply Hok.
      * intros [Hv|Hex]%Exists_cons; [congruence | by apply Hbad].
      * intros item [[?|?]%Hm1|(v' & Hin & Hm)]%Hm2.
        -- by left.
        -- right. exists v. split; [left | done].
        -- right. exists v'. split; [by right | done].
Qed.

End Facts.
End CacheFacts.

Module CacheClaims.
Import Spec GoStrings GoStringsFacts GoTime Backend Cache Hoare Scenarios CacheFacts.

#[local] Arguments str : simpl never.

(** C6. When the walk of the storage tree fails, [Update] returns without
    touching the snapshot: the entries are those from before the refresh. *)
Theorem failed_walk_keeps_snapshot `{Externals} (w : World) :
  Exists (fun v => v_err v ≠ None) (filepath_Walk walk_root (ext w)) →
  ∃ w', Update w = Ok tt w' ∧ searchCache_items w' = searchCache_items w.
Proof.
  intros Hbad.
  assert (wp Update (fun _ w' => searchCache_items w' = searchCache_items w)
            (fun _ => False) w) as Hwp.
  { unfold Update. repeat wp_step.
    eapply wp_mono; [apply walk_spec | | done].
    intros [items e] w1 (Hi & _ & He & _). simpl in *.
    destruct e as [err|]; [by wp_step |]. by destruct (He Hbad). }
  unfold wp in Hwp. destruct (Update w) as [[] w'|]; [by exists w' | done].
Qed.

Lemma failed_walk_keeps_snapshot_witness :
  Exists (fun v => v_err v ≠ None)
    (@filepath_Walk broken_tree (@walk_root broken_tree) 0%nat)
  ∧ ∃ w', @Update broken_tree (@mkWorld broken_tree None [str "host1:cpu:used"] 0%nat []) = Ok tt w'
          ∧ searchCache_items w' = [str "host1:cpu:used"].
Proof.
  assert (Exists (fun v => v_err v ≠ None)
            (@filepath_Walk broken_tree (@walk_root broken_tree) 0%nat)) as Hbad.
  { do 2 apply Exists_cons_tl. apply Exists_cons_hd. discriminate. }
  split; [exact Hbad |].
  apply (@failed_walk_keeps_snapshot broken_tree
           (@mkWorld broken_tree None [str "host1:cpu:used"] 0%nat [])).
  exact Hbad.
Defined.

Example plain_tree_snapshot :
  searchCache_items (res_world (@Update plain_tree (world0 plain_tree None 0%nat)))
  = [str "host1:cpu:used"].
Proof. vm_compute. reflexivity. Qed.

Example colon_tree_snapshot :
  searchCache_items (res_world (@Update colon_tree (world0 colon_tree None 0%nat)))
  = [str "a:b:used"].
Proof. vm_compute. reflexivity. Qed.

(** An archive copy [foo.rrd.bak] is indexed as [foo.bak]. *)
Example backup_tree_snapshot :
  searchCache_items (res_world (@Update backup_tree (world0 backup_tree None 0%nat)))
  = [str "foo.bak:used"].
Proof. vm_compute. reflexivity. Qed.

(** C8 as stated does not hold.  For the archive [a:b.rrd] the snapshot
    holds [a:b:used], and for the archive copy [foo.rrd.bak] it holds
    [foo.bak:used]; in neither case does any way of cutting the entry into a
    prefix and a datasource rejoin to the path of a visited file. *)
Lemma odd_file_names_counterexample :
  ¬ (∀ item,
       item ∈ searchCache_items (res_world (@Update colon_tree (world0 colon_tree None 0%nat))) →
       @names_archive colon_tree
         (@filepath_Walk colon_tree (@walk_root colon_tree) 0%nat) item)
  ∧ ¬ (∀ item,
         item ∈ searchCache_items (res_world (@Update backup_tree (world0 backup_tree None 0%nat))) →
         @names_archive backup_tree
           (@filepath_Walk backup_tree (@walk_root backup_tree) 0%nat) item).
Proof.
  split.
  - intros Hall. rewrite colon_tree_snapshot in Hall.
    destruct (Hall (str "a:b:used")) as (v & Hv & Hfile & prefix & ds & _ & Hrel);
      [by left |].
    apply elem_of_cons in Hv as [->|Hv]; [discriminate |].
    apply list_elem_of_singleton in Hv as ->.
    change (Replace prefix [":"%char] ["/"%char] (-1) ++ str ".rrd"
            = str "a:b" ++ str ".rrd") in Hrel.
    apply app_inv_tail in Hrel.
    apply (Replace_byte_gone prefix ":"%char "/"%char); [done |].
    rewrite Hrel. set_solver.
  - intros Hall. rewrite backup_tree_snapshot in Hall.
    destruct (Hall (str "foo.bak:used")) as (v & Hv & Hfile & prefix & ds & _ & Hrel);
      [by left |].
    apply elem_of_cons in Hv as [->|Hv]; [discriminate |].
    apply list_elem_of_singleton in Hv as ->.
    pose proof (HasSuffix_app (Replace prefix (str ":") (str "/") (-1)) (str ".rrd"))
      as Hsuf.
    rewrite Hrel in Hsuf. vm_compute in Hsuf. discriminate.
Qed.

(** C8, amended.  When the walk does not fail and every file it takes for an
    archive has a relative path without a colon and with [.rrd] only as its
    ending, a refresh completes and every entry of the new snapshot is
    [prefix:datasource] where [prefix], with its colons turned into path
    separators and the extension appended, is the path under the base path of
    a file that was visited. *)
Theorem snapshot_entries_name_archives `{Externals} (w : World) :
  Forall (fun v => v_err v = None) (filepath_Walk walk_root (ext w)) →
  Forall (fun v => plain_visit v = true) (filepath_Walk walk_root (ext w)) →
  ∃ w', Update w = Ok tt w'
        ∧ ∀ item, item ∈ searchCache_items w' →
                  names_archive (filepath_Walk walk_root (ext w)) item.
Proof.
  intros Hok Hplain.
  assert (wp Update
            (fun _ w' => ∀ item, item ∈ searchCache_items w' →
                                 names_archive (filepath_Walk walk_root (ext w)) item)
            (fun _ => False) w) as Hwp.
  { unfold Update. repeat wp_step.
    eapply wp_mono; [apply walk_spec | | done].
    intros [items e] w1 (_ & He & _ & Hitems). simpl in *.
    rewrite (He Hok). wp_step. simpl.
    intros item [?%elem_of_nil|(v & Hv & Hdir & Hname & ds & ->)]%Hitems; [done |].
    exists v. split_and!; [done | done |].
    rewrite Forall_forall in Hplain. specialize (Hplain v Hv).
    unfold plain_visit in Hplain. rewrite Hdir, Hname in Hplain. simpl in Hplain.
    eexists _, ds. split; [done |]. by apply fName_of_plain. }
  unfold wp in Hwp. destruct (Update w) as [[] w'|]; [by exists w' | done].
Qed.

Lemma snapshot_entries_name_archives_witness :
  Forall (fun v => v_err v = None)
    (@filepath_Walk plain_tree (@walk_root plain_tree) 0%nat)
  ∧ Forall (fun v => @plain_visit plain_tree v = true)
      (@filepath_Walk plain_tree (@walk_root plain_tree) 0%nat)
  ∧ ∃ w', @Update plain_tree (world0 plain_tree None 0%nat) = Ok tt w'
          ∧ ∀ item, item ∈ searchCache_items w' →
                    @names_archive plain_tree
                      (@filepath_Walk plain_tree (@walk_root plain_tree) 0%nat) item.
Proof.
  assert (Forall (fun v => v_err v = None)
            (@filepath_Walk plain_tree (@walk_root plain_tree) 0%nat)) as Hok
    by (repeat constructor).
  assert (Forall (fun v => @plain_visit plain_tree v = true)
            (@filepath_Walk plain_tree (@walk_root plain_tree) 0%nat)) as Hplain
    by (repeat constructor).
  split; [exact Hok |]. split; [exact Hplain |].
  exact (@snapshot_entries_name_archives plain_tree (world0 plain_tree None 0%nat)
           Hok Hplain).
Defined.

End CacheClaims.

(** * Further properties of the code *)

(** ** [ls] and [search] on arbitrary snapshots *)
Module ListingExtras.
Import GoStrings GoStringsFacts Listing ListingFacts Scenarios.

(** X1. What [ls] answers for any snapshot and any target: the directories
    are exactly the first segments that some file part has after the
    target's prefix when more follows, the files are exactly the last
    segments found right after the prefix, and neither list repeats a
    name. *)
Theorem ls_lists_one_level (items : list gostring) (target : gostring) :
  NoDup (Directories (ls items target))
  ∧ NoDup (Files (ls items target))
  ∧ (∀ d, d ∈ Directories (ls items target) ↔
          ∃ path rest, path ∈ items
            ∧ file_part path = ls_prefix target ++ d ++ ":"%char :: rest
            ∧ ":"%char ∉ d)
  ∧ (∀ f, f ∈ Files (ls items target) ↔
          ∃ path, path ∈ items
            ∧ file_part path = ls_prefix target ++ f
            ∧ (":"%char ∉ f) ∧ f ≠ []).
Proof.
  split_and!.
  - unfold ls. simpl. apply NoDup_elements.
  - unfold ls. simpl. apply NoDup_elements.
  - intros d. apply ls_Directories.
  - intros f. apply ls_Files.
Qed.

(** X2. Listing a directory that no entry lies under answers two empty
    lists. *)
Theorem ls_unknown_directory (items : list gostring) (target : gostring) :
  Forall (fun path => HasPrefix (file_part path) (ls_prefix target) = false) items →
  ls items target = {| Directories := []; Files := [] |}.
Proof.
  intros Hnone. rewrite Forall_forall in Hnone.
  assert (Directories (ls items target) = []) as Hd.
  { destruct (Directories (ls items target)) as [|d l] eqn:Hl; [done |].
    assert (d ∈ Directories (ls items target)) as Hin by (rewrite Hl; left).
    apply ls_Directories in Hin as (path & rest & Hin & Hfp & _).
    specialize (Hnone path Hin). by rewrite Hfp, HasPrefix_app in Hnone. }
  assert (Files (ls items target) = []) as Hf.
  { destruct (Files (ls items target)) as [|f l] eqn:Hl; [done |].
    assert (f ∈ Files (ls items target)) as Hin by (rewrite Hl; left).
    apply ls_Files in Hin as (path & Hin & Hfp & _).
    specialize (Hnone path Hin). by rewrite Hfp, HasPrefix_app in Hnone. }
  destruct (ls items target). simpl in *. by subst.
Qed.

Lemma ls_unknown_directory_witness :
  Forall (fun path => HasPrefix (file_part path) (ls_prefix (str "host")) = false) index3
  ∧ ls index3 (str "host") = {| Directories := []; Files := [] |}.
Proof.
  assert (Forall (fun path => HasPrefix (file_part path) (ls_prefix (str "host")) = false)
            index3) as Hnone by (repeat constructor).
  split; [exact Hnone |]. exact (ls_unknown_directory index3 (str "host") Hnone).
Defined.

Lemma Contains_trans (s t u : gostring) :
  Contains s t = true → Contains t u = true → Contains s u = true.
Proof.
  rewrite !Contains_spec. intros (a & b & ->) (c & d & ->).
  exists (a ++ c), (d ++ b). by rewrite <- !app_assoc.
Qed.

(** X3. [search] answers a part of the snapshot, in snapshot order, and a
    longer target narrows it: every hit for a target is a hit for each
    non-empty target contained in it. *)
Theorem search_narrows (items : list gostring) (target target' : gostring) :
  target' ≠ [] →
  Contains target target' = true →
  search items target `sublist_of` search items target'
  ∧ search items target' `sublist_of` items.
Proof.
  intros Hne Hsub. unfold search.
  rewrite (bool_decide_eq_false_2 (target' = [])) by done. simpl.
  split; [| apply sublist_filter].
  case_bool_decide; simpl; [apply sublist_nil_l |].
  induction items as [|path items IH]; [done |].
  rewrite !filter_cons.
  destruct (decide (Contains path target = true)) as [Hhit|Hmiss].
  - rewrite decide_True by (by eapply Contains_trans). by constructor.
  - destruct (decide (Contains path target' = true)); [by constructor | done].
Qed.

Lemma search_narrows_witness :
  str "cpu" ≠ []
  ∧ Contains (str "cpu:used") (str "cpu") = true
  ∧ search index3 (str "cpu:used") `sublist_of` search index3 (str "cpu")
  ∧ search index3 (str "cpu") `sublist_of` index3.
Proof.
  split; [discriminate |]. split; [reflexivity |].
  apply (search_narrows index3 (str "cpu:used") (str "cpu")); [discriminate | reflexivity].
Defined.

(** X4. Whatever [ls] lists can be found again: searching for the path of
    a listed file, or of a listed directory with a name, finds an entry of
    the snapshot. *)
Theorem listed_names_are_searchable (items : list gostring) (target name : gostring) :
  name ∈ Files (ls items target)
  ∨ (name ∈ Directories (ls items target) ∧ name ≠ []) →
  ∃ path, path ∈ search items (join_target target name) ∧ path ∈ items.
Proof.
  assert (∀ path rest, file_part path = ls_prefix target ++ name ++ rest →
                       name ≠ [] → path ∈ items →
                       path ∈ search items (join_target target name)) as Hfound.
  { intros path rest Hfp Hname Hin. unfold search.
    rewrite ls_prefix_join, bool_decide_eq_false_2
      by (intros [_ ?]%app_eq_nil; done).
    simpl. apply list_elem_of_filter. split; [| done].
    apply Contains_spec.
    exists [], (rest ++ drop (Z.to_nat (LastIndex path (str ":"))) path).
    rewrite <- (take_drop (Z.to_nat (LastIndex path (str ":"))) path) at 1.
    fold (file_part path). rewrite Hfp. simpl. by rewrite <- !app_assoc. }
  intros [Hf|[Hd Hname]].
  - apply ls_Files in Hf as (path & Hin & Hfp & _ & Hname).
    exists path. split; [| done]. apply (Hfound path []); [| done | done].
    by rewrite app_nil_r.
  - apply ls_Directories in Hd as (path & rest & Hin & Hfp & _).
    exists path. split; [| done]. by apply (Hfound path (":"%char :: rest)).
Qed.

Lemma listed_names_are_searchable_witness :
  (str "cpu" ∈ Files (ls index3 (str "host1"))
   ∨ (str "cpu" ∈ Directories (ls index3 (str "host1")) ∧ str "cpu" ≠ []))
  ∧ ∃ path, path ∈ search index3 (join_target (str "host1") (str "cpu"))
            ∧ path ∈ index3.
Proof.
  assert (str "cpu" ∈ Files (ls index3 (str "host1"))
          ∨ (str "cpu" ∈ Directories (ls index3 (str "host1")) ∧ str "cpu" ≠ []))
    as Hlisted by (left; vm_compute; left).
  split; [exact Hlisted |].
  exact (listed_names_are_searchable index3 (str "host1") (str "cpu") Hlisted).
Defined.

End ListingExtras.

(** ** Parts of [query] *)
Module QueryExtras.
Import Spec GoStrings GoStringsFacts GoTime Backend Fetcher Query Listing ListingFacts
  ProjectionFacts Scenarios.

#[local] Arguments str : simpl never.

Lemma project_loop_negative (n i : nat) (fetchData : list (list float))
    (dsIndex multiplier : Z) (fetchStep : Duration) (ts : Time)
    (pts : list (list float)) :
  dsIndex < 0 →
  project_loop (S n) i fetchData dsIndex multiplier fetchStep ts pts = None.
Proof.
  intros Hneg. cbn [project_loop]. destruct (fetchData !! i) as [row|]; [| done].
  destruct (Z.ltb_spec dsIndex (Z.of_nat (length row))); [| lia].
  by destruct (Z.ltb_spec dsIndex 0); [| lia].
Qed.

(** X5. For a fetch result whose row count is the number of its rows, the
    projection fails (the request panics on an index out of range) exactly
    when the column index is negative and there are at least two rows. *)
Theorem project_panics_iff (fd : FetchData) (dsIndex multiplier : Z) :
  Z.of_nat (length (points fd)) = rowCnt fd →
  project fd dsIndex multiplier = None ↔ dsIndex < 0 ∧ 2 <= rowCnt fd.
Proof.
  intros Hlen. split.
  - intros Hnone. destruct (Z.ltb_spec dsIndex 0) as [Hneg|Hpos].
    + split; [done |]. destruct (Z.leb_spec 2 (rowCnt fd)) as [|Hsmall]; [done |].
      unfold project in Hnone.
      replace (Z.to_nat (rowCnt fd - 1)) with O in Hnone by lia. done.
    + by rewrite project_spec in Hnone.
  - intros [Hneg Hrows]. unfold project.
    destruct (Z.to_nat (rowCnt fd - 1)) as [|n] eqn:Hn; [lia |].
    by apply project_loop_negative.
Qed.

Lemma project_panics_iff_witness :
  Z.of_nat (length (points fd4)) = rowCnt fd4
  ∧ (project fd4 (-1) 10 = None ↔ -1 < 0 ∧ 2 <= rowCnt fd4).
Proof.
  split; [reflexivity |]. apply (project_panics_iff fd4 (-1) 10). reflexivity.
Defined.

(** X6. A fetch result with at most one row, or whose rows all end before
    the datasource column, projects to no datapoints at all. *)
Theorem project_nothing_to_show (fd : FetchData) (dsIndex multiplier : Z) :
  0 <= dsIndex →
  Z.of_nat (length (points fd)) = rowCnt fd →
  rowCnt fd <= 1 ∨ Forall (fun row => Z.of_nat (length row) <= dsIndex) (points fd) →
  project fd dsIndex multiplier = Some [].
Proof.
  intros Hds Hlen Hcase. rewrite project_spec by done. f_equal.
  destruct Hcase as [Hsmall|Hnarrow].
  - by replace (Z.to_nat (rowCnt fd - 1)) with O by lia.
  - assert (∀ (f : nat → list float → list (list float)) (rows : list (list float)),
              (∀ i row, row ∈ rows → f i row = []) → mjoin (imap f rows) = []) as Hall.
    { intros f rows. revert f. induction rows as [|row rows IH]; intros f Hf; [done |].
      simpl. rewrite Hf by left. simpl. apply IH. intros i r Hr. apply Hf. by right. }
    apply Hall. intros i row Hrow. unfold row_point.
    rewrite Forall_forall in Hnarrow.
    assert (row ∈ points fd) as Hin by (eapply elem_of_sublist; [done | apply sublist_take]).
    specialize (Hnarrow row Hin). rewrite lookup_ge_None_2 by lia. done.
Qed.

Lemma project_nothing_to_show_witness :
  0 <= 1
  ∧ Z.of_nat (length (points fd4)) = rowCnt fd4
  ∧ (rowCnt fd4 <= 1 ∨ Forall (fun row => Z.of_nat (length row) <= 1) (points fd4))
  ∧ project fd4 1 10 = Some [].
Proof.
  assert (rowCnt fd4 <= 1 ∨ Forall (fun row => Z.of_nat (length row) <= 1) (points fd4))
    as Hcase by (right; repeat constructor; simpl; lia).
  split; [lia |]. split; [reflexivity |]. split; [exact Hcase |].
  apply (project_nothing_to_show fd4 1 10); [lia | reflexivity | exact Hcase].
Defined.

Lemma find_name_from (ds : gostring) (dsNames : list gostring) (k i : Z) :
  find_name ds dsNames k = Some i ↔
  ∃ n : nat, i = k + Z.of_nat n ∧ dsNames !! n = Some ds
             ∧ ∀ m : nat, (m < n)%nat → dsNames !! m ≠ Some ds.
Proof.
  revert k. induction dsNames as [|name rest IH]; intros k; simpl.
  - split; [done |]. by intros (n & _ & ? & _).
  - case_bool_decide as Heq.
    + subst name. split.
      * intros [= <-]. exists O. split_and!; [lia | done | intros; lia].
      * intros (n & -> & Hn & Hfirst). destruct n as [|n]; [f_equal; lia |].
        by destruct (Hfirst O); [lia |].
    + rewrite IH. split.
      * intros (n & -> & Hn & Hfirst). exists (S n). split_and!; [lia | done |].
        intros [|m] Hm; simpl; [congruence | apply Hfirst; lia].
      * intros ([|n] & -> & Hn & Hfirst); simpl in Hn; [congruence |].
        exists n. split_and!; [lia | done |].
        intros m Hm. apply (Hfirst (S m)). lia.
Qed.

Lemma find_name_none (ds : gostring) (dsNames : list gostring) (k : Z) :
  find_name ds dsNames k = None ↔ ds ∉ dsNames.
Proof.
  revert k. induction dsNames as [|name rest IH]; intros k; simpl.
  - split; [intros _; apply not_elem_of_nil | done].
  - case_bool_decide as Heq.
    + subst. split; [done | intros Hnot; destruct Hnot; left].
    + rewrite IH, not_elem_of_cons. naive_solver.
Qed.

(** X7. Looking a datasource up among the names of a fetch gives the first
    column that carries the name, and nothing exactly when no column does. *)
Theorem find_name_first (ds : gostring) (dsNames : list gostring) :
  (∀ i, find_name ds dsNames 0 = Some i ↔
        ∃ n : nat, i = Z.of_nat n ∧ dsNames !! n = Some ds
                   ∧ ∀ m : nat, (m < n)%nat → dsNames !! m ≠ Some ds)
  ∧ (find_name ds dsNames 0 = None ↔ ds ∉ dsNames).
Proof.
  split.
  - intros i. rewrite find_name_from. by setoid_rewrite Z.add_0_l.
  - apply find_name_none.
Qed.

Lemma target_ds_app (fp ds : gostring) :
  ":"%char ∉ ds → target_ds (fp ++ str ":" ++ ds) = ds.
Proof.
  intros Hds. unfold target_ds. change (str ":") with [":"%char]. simpl.
  rewrite LastIndex_char by done.
  replace (Z.to_nat (Z.of_nat (length fp) + 1)) with (length (fp ++ [":"%char]))
    by (rewrite length_app; simpl; lia).
  by rewrite (cons_middle ":"%char fp ds), app_assoc, drop_app_length.
Qed.

(** X8. An identifier [file:ds] built by the index splits back the same way
    wherever it is read: [query] takes [ds] for the datasource and [ls]
    takes [file] for the file part, provided [ds] holds no colon.  A target
    without any colon is taken whole as the datasource, and the datasource
    [query] takes never holds a colon. *)
Theorem identifier_splits_back (target fp ds : gostring) :
  (":"%char ∉ ds →
   target_ds (fp ++ str ":" ++ ds) = ds ∧ file_part (fp ++ str ":" ++ ds) = fp)
  ∧ (":"%char ∉ target → target_ds target = target)
  ∧ ":"%char ∉ target_ds target.
Proof.
  split_and!.
  - intros Hds. split; [by apply target_ds_app | by apply file_part_app].
  - intros Hno. unfold target_ds. change (str ":") with [":"%char].
    by rewrite LastIndex_none.
  - destruct (decide (":"%char ∈ target)) as [Hin|Hno].
    + apply last_split in Hin as (fp' & ds' & -> & Hds').
      change (fp' ++ ":"%char :: ds') with (fp' ++ str ":" ++ ds').
      by rewrite (target_ds_app fp' ds' Hds').
    + unfold target_ds. change (str ":") with [":"%char].
      by rewrite LastIndex_none.
Qed.

Lemma identifier_splits_back_witness :
  (":"%char ∉ str "used")
  ∧ target_ds (str "host1:cpu" ++ str ":" ++ str "used") = str "used"
  ∧ file_part (str "host1:cpu" ++ str ":" ++ str "used") = str "host1:cpu".
Proof.
  assert (":"%char ∉ str "used") as Hds.
  { intros Hin. by repeat (apply elem_of_cons in Hin as [?|Hin]; [done |]);
      apply elem_of_nil in Hin. }
  split; [exact Hds |].
  exact (proj1 (identifier_splits_back [] (str "host1:cpu") (str "used")) Hds).
Defined.

Lemma info_step_keeps_lastUpdate (ds : gostring) (infoRes : list InfoLine)
    (acc : Time * Z) :
  Forall (fun info => Key info ≠ str "last_update") infoRes →
  (fold_left (info_step ds) infoRes acc).1 = acc.1.
Proof.
  intros Hno. revert acc. induction Hno as [|info rest Hkey _ IH]; intros acc; [done |].
  simpl. rewrite IH. unfold info_step. simpl.
  by rewrite bool_decide_eq_false_2.
Qed.



(** X10. When the daemon's Info answer has no [last_update] line, the last
    update stays the zero time and the clamp leaves every range that starts
    at or after the zero time as requested. *)
Theorem daemon_info_without_last_update (ds : gostring) (infoRes : list InfoLine)
    (from to : Time) :
  Forall (fun info => Key info ≠ str "last_update") infoRes →
  zeroTime <= from →
  clamp from to (fold_left (info_step ds) infoRes (zeroTime, 0)).1 = to.
Proof.
  intros Hno Hfrom. rewrite info_step_keeps_lastUpdate by done. simpl.
  unfold clamp, After. destruct (Z.ltb_spec from zeroTime); [lia |].
  by rewrite andb_false_r.
Qed.

Lemma daemon_info_without_last_update_witness :
  Forall (fun info => Key info ≠ str "last_update")
    [mkInfoLine (str "ds[used].index") (VInt64 0)]
  ∧ zeroTime <= time_Unix 0
  ∧ clamp (time_Unix 0) (time_Unix 100)
      (fold_left (info_step (str "used"))
         [mkInfoLine (str "ds[used].index") (VInt64 0)] (zeroTime, 0)).1
    = time_Unix 100.
Proof.
  assert (Forall (fun info => Key info ≠ str "last_update")
            [mkInfoLine (str "ds[used].index") (VInt64 0)]) as Hno
    by (repeat constructor; discriminate).
  assert (zeroTime <= time_Unix 0) as Hfrom by (vm_compute; discriminate).
  split; [exact Hno |]. split; [exact Hfrom |].
  exact (daemon_info_without_last_update (str "used") _ (time_Unix 0) (time_Unix 100)
           Hno Hfrom).
Defined.

End QueryExtras.

(** ** More about [fetchRRDData] *)
Module FetcherExtras.
Import SpecMore Spec Measures GoStrings GoTime Backend Fetcher Query Hoare FetcherFacts
  ProjectionFacts Scenarios.

#[local] Arguments str : simpl never.
#[local] Arguments HasPrefix : simpl never.
#[local] Arguments TrimPrefix : simpl never.
#[local] Arguments Contains : simpl never.
#[local] Arguments transient : simpl never.

Lemma slept_app (tr1 tr2 : list Event) : slept (tr1 ++ tr2) = slept tr1 + slept tr2.
Proof.
  induction tr1 as [|e tr1 IH]; [done |]. destruct e; simpl; rewrite ?IH; lia.
Qed.

Lemma slept_attempt (filePath cf : gostring) (s e : Z) (k : nat) (o : option error) :
  slept (attempt_events filePath cf s e k o)
  = if k is O then 0 else Z.of_nat k * Z.of_nat k * Second.
Proof.
  unfold attempt_events. rewrite !slept_app.
  assert (slept match o with
                | Some err => EvFetchFailed (Z.of_nat k + 1) err
                              :: (if transient err then [EvReconnect] else [])
                | None => []
                end = 0) as ->.
  { destruct o as [err|]; [| done]. by destruct (transient err). }
  destruct k; simpl; lia.
Qed.

(** X11. A fetch through the daemon sleeps for 0, 1 or 5 seconds in all,
    and for 5 seconds whenever it returns an error. *)
Theorem fetch_backoff_bounded `{Externals} (filePath cf : gostring)
    (start end_ : Time) (step : Duration) (w : World) (c : Conn) :
  rrdcachedClient w = Some c →
  ∃ evs,
    trace (res_world (fetchRRDData filePath cf start end_ step w)) = trace w ++ evs
    ∧ (slept evs = 0 ∨ slept evs = Second ∨ slept evs = 5 * Second)
    ∧ match fetchRRDData filePath cf start end_ step w with
      | Ok (inr _) _ => slept evs = 5 * Second
      | _ => True
      end.
Proof.
  intros Hc.
  pose proof (fetchRRDData_daemon_spec filePath cf start end_ step w c Hc) as Hwp.
  unfold wp in Hwp.
  destruct (fetchRRDData filePath cf start end_ step w) as [r w'|w']; [| done].
  destruct Hwp as (errs & final & [Ht _] & Hlen & Hr).
  eexists. split; [exact Ht |].
  assert (slept (EvFlush filePath
                 :: mjoin (imap (attempt_events filePath cf (Unix start) (Unix end_))
                                ((Some <$> errs) ++ [final])))
          = match length errs with
            | 0%nat => 0
            | 1%nat => Second
            | _ => 5 * Second
            end) as ->.
  { destruct errs as [|e1 [|e2 [|e3 errs]]]; simpl in Hlen; try lia;
      cbn [fmap list_fmap app imap mjoin list_join length slept compose];
      rewrite ?slept_app, ?slept_attempt; simpl; unfold Second; lia. }
  split.
  - destruct errs as [|e1 [|e2 errs]]; simpl; auto.
  - destruct r as [fd|err]; [done |]. destruct Hr as [_ ->]. done.
Qed.

Lemma fetch_backoff_bounded_witness :
  rrdcachedClient (world0 dead_daemon (Some tt) 0%nat) = Some tt
  ∧ ∃ evs,
      trace (res_world (@fetchRRDData dead_daemon (str "/rrd/a.rrd") (str "AVERAGE")
                          (time_Unix 0) (time_Unix 100) (10 * Second)
                          (world0 dead_daemon (Some tt) 0%nat)))
      = trace (world0 dead_daemon (Some tt) 0%nat) ++ evs
      ∧ (slept evs = 0 ∨ slept evs = Second ∨ slept evs = 5 * Second)
      ∧ match @fetchRRDData dead_daemon (str "/rrd/a.rrd") (str "AVERAGE")
                (time_Unix 0) (time_Unix 100) (10 * Second)
                (world0 dead_daemon (Some tt) 0%nat) with
        | Ok (inr _) _ => slept evs = 5 * Second
        | _ => True
        end.
Proof.
  split; [reflexivity |].
  apply (@fetch_backoff_bounded dead_daemon _ _ _ _ _ _ tt). reflexivity.
Defined.

Section Client.
Context `{Externals}.

Lemma client_kept_refl (w w' : World) :
  trace w' = trace w → rrdcachedClient w' = rrdcachedClient w → client_kept w w'.
Proof. intros Ht Hc. exists []. by rewrite app_nil_r. Qed.

Lemma client_kept_trans (w1 w2 w3 : World) :
  client_kept w1 w2 → client_kept w2 w3 → client_kept w1 w3.
Proof.
  intros (evs1 & Ht1 & Hc1) (evs2 & Ht2 & Hc2). exists (evs1 ++ evs2).
  split; [by rewrite Ht2, Ht1, app_assoc |].
  intros Hno. rewrite Hc2, Hc1; [done | set_solver | set_solver].
Qed.

Lemma client_kept_event (w w' : World) (e : Event) :
  e ≠ EvReconnect → client_kept w w' → client_kept w (add_event w' e).
Proof.
  intros He Hk. eapply client_kept_trans; [exact Hk |].
  exists [e]. split; [done |]. done.
Qed.

Lemma client_kept_ext (w w' : World) (x : Ext) :
  client_kept w w' → client_kept w (set_ext w' x).
Proof.
  intros Hk. eapply client_kept_trans; [exact Hk |]. by apply client_kept_refl.
Qed.

Lemma fetch_attempt_client (attempt : Z) (filePath cf : gostring) (s e : Z) (w : World) :
  wp (fetch_attempt attempt filePath cf s e) (fun _ w' => client_kept w w')
     (fun _ => False) w.
Proof.
  unfold fetch_attempt. wp_step.
  assert (∀ w0, client_kept w w0 →
            wp (c ← get_client;
                emit (EvFetch filePath cf s e);;
                r ← call (client_Fetch c filePath cf s e);
                match r with
                | inl _ => mret r
                | inr err =>
                    emit (EvFetchFailed (attempt + 1) err);;
                    (if transient err
                     then emit EvReconnect;; recreateRRDCachedClient;; mret tt
                     else mret tt);;
                    mret r
                end)
               (fun _ w' => client_kept w w') (fun _ => False) w0) as Hbody.
  { intros w0 Hk. repeat wp_step.
    assert (client_kept w (set_ext (add_event w0 (EvFetch filePath cf s e)) x)) as Hk1
      by (by apply client_kept_ext, client_kept_event).
    destruct a as [f|err]; repeat wp_step; [done |].
    destruct (transient err); repeat wp_step.
    - eapply wp_mono; [apply recreate_spec | | done].
      intros _ w' [Ht' _]. repeat wp_step. simpl in Ht'.
      destruct Hk as (evs & Ht & _).
      eexists. split.
      + rewrite Ht'. simpl. rewrite Ht, app_nil_r, <- !app_assoc. done.
      + intros Hno. destruct Hno. set_solver.
    - by apply client_kept_event. }
  destruct (0 <? attempt); wp_step; apply Hbody.
  - apply client_kept_event; [done |]. by apply client_kept_refl.
  - by apply client_kept_refl.
Qed.

Lemma fetch_loop_client (n : nat) (attempt : Z) (filePath cf : gostring) (s e : Z)
    (cur : option (DaemonFetch + error)) (w : World) :
  wp (fetch_loop n attempt filePath cf s e cur) (fun _ w' => client_kept w w')
     (fun _ => False) w.
Proof.
  revert attempt cur w. induction n as [|n IH]; intros attempt cur w.
  - simpl. wp_step. by apply client_kept_refl.
  - rewrite fetch_loop_S. wp_step.
    eapply wp_mono; [apply fetch_attempt_client | | done].
    intros [f|err] w1 Hk1; [by wp_step |].
    eapply wp_mono; [apply IH | | done].
    intros r w2 Hk2. by eapply client_kept_trans.
Qed.

End Client.

(** X12. Whatever [fetchRRDData] does, on either path, it replaces the
    shared daemon client only by way of a reconnection: when no reconnection
    is among its events, the client afterwards is the one from before. *)
Theorem client_replaced_only_by_reconnection `{Externals} (filePath cf : gostring)
    (start end_ : Time) (step : Duration) (w : World) :
  ∃ evs,
    trace (res_world (fetchRRDData filePath cf start end_ step w)) = trace w ++ evs
    ∧ (EvReconnect ∉ evs →
       rrdcachedClient (res_world (fetchRRDData filePath cf start end_ step w))
       = rrdcachedClient w).
Proof.
  assert (wp (fetchRRDData filePath cf start end_ step)
            (fun _ w' => client_kept w w') (fun w' => client_kept w w') w) as Hwp.
  { unfold fetchRRDData. wp_step. wp_step.
    destruct (rrdcachedClient w) as [c|] eqn:Hc.
    - repeat wp_step.
      eapply wp_mono; [apply fetch_loop_client | | done].
      intros r w2 Hk2.
      assert (client_kept w w2) as Hk.
      { eapply client_kept_trans; [| exact Hk2].
        apply client_kept_ext, client_kept_event; [done |]. by apply client_kept_refl. }
      destruct r as [[fetch|err]|]; by wp_step.
    - repeat wp_step.
      assert (client_kept w (set_ext w x)) as Hk
        by (by apply client_kept_ext, client_kept_refl).
      destruct a as [fetchRes|err]; [| by wp_step].
      destruct (RowCnt fetchRes <? 0); by wp_step. }
  unfold wp in Hwp. by destruct (fetchRRDData filePath cf start end_ step w).
Qed.

(** X13. With direct file access a successful [rrd.Fetch] is returned as a
    table of [RowCnt] rows and one column per datasource name, the value of
    row [i] and column [j] being [ValueAt(j, i)]; the call is made once,
    nothing is logged, and the names, start, step and row count are handed
    on as they are. *)
Theorem local_fetch_table `{Externals} (filePath cf : gostring) (start end_ : Time)
    (step : Duration) (w : World) (fetchRes : LocalFetch) (x : Ext) :
  rrdcachedClient w = None →
  rrd_Fetch filePath cf start end_ step (ext w) = (inl fetchRes, x) →
  0 <= RowCnt fetchRes →
  ∃ fd,
    fetchRRDData filePath cf start end_ step w = Ok (inl fd) (set_ext w x)
    ∧ names fd = DsNames fetchRes
    ∧ Fetcher.start fd = l_Start fetchRes
    ∧ Fetcher.step fd = l_Step fetchRes
    ∧ rowCnt fd = RowCnt fetchRes
    ∧ Z.of_nat (length (points fd)) = RowCnt fetchRes
    ∧ ∀ i j : nat,
        Z.of_nat i < RowCnt fetchRes →
        (j < length (DsNames fetchRes))%nat →
        points fd !! i ≫= (fun row => row !! j) = Some (ValueAt fetchRes j i).
Proof.
  intros Hc Hf Hcnt. eexists. split.
  - unfold fetchRRDData, mbind, M_bind, bind, get_client, call.
    rewrite Hc, Hf. destruct (Z.ltb_spec (RowCnt fetchRes) 0); [lia | done].
  - simpl. split_and!; try done.
    + unfold local_points. rewrite length_fmap, length_seq. lia.
    + intros i j Hi Hj. unfold local_points.
      rewrite list_lookup_fmap, lookup_seq_lt by lia. simpl.
      rewrite list_lookup_fmap, lookup_seq_lt by lia. done.
Qed.

Lemma local_fetch_table_witness :
  rrdcachedClient (world0 two_files None 0%nat) = None
  ∧ @rrd_Fetch two_files (str "/rrd/a.rrd") (str "AVERAGE") (time_Unix 0) (time_Unix 50)
      (10 * Second) 0%nat = (inl local3, 0%nat)
  ∧ 0 <= RowCnt local3
  ∧ ∃ fd,
      @fetchRRDData two_files (str "/rrd/a.rrd") (str "AVERAGE") (time_Unix 0)
        (time_Unix 50) (10 * Second) (world0 two_files None 0%nat)
      = Ok (inl fd) (@set_ext two_files (world0 two_files None 0%nat) 0%nat)
      ∧ names fd = DsNames local3
      ∧ Fetcher.start fd = l_Start local3
      ∧ Fetcher.step fd = l_Step local3
      ∧ rowCnt fd = RowCnt local3
      ∧ Z.of_nat (length (points fd)) = RowCnt local3
      ∧ ∀ i j : nat,
          Z.of_nat i < RowCnt local3 →
          (j < length (DsNames local3))%nat →
          points fd !! i ≫= (fun row => row !! j) = Some (ValueAt local3 j i).
Proof.
  split; [reflexivity |]. split; [reflexivity |]. split; [vm_compute; discriminate |].
  apply (@local_fetch_table two_files); [reflexivity | reflexivity |].
  vm_compute; discriminate.
Defined.

(** X14. What [query] shows of a daemon fetch: a row before the final one
    yields a datapoint exactly when its sample in the datasource column is
    present and not NaN; a missing sample (a nil pointer) yields none. *)
Theorem daemon_missing_samples_dropped (fetch : DaemonFetch) (dsIndex multiplier : Z) :
  0 <= dsIndex →
  ∃ out,
    project (mkFetchData (daemon_points (d_Rows fetch)) (d_Names fetch)
               (d_Start fetch) (d_Step fetch) (Z.of_nat (length (d_Rows fetch))))
      dsIndex multiplier
    = Some out
    ∧ ∀ pt, pt ∈ out ↔
        ∃ (i : nat) (row : list (option float)) (value : float),
          (S i < length (d_Rows fetch))%nat
          ∧ d_Rows fetch !! i = Some row
          ∧ row !! Z.to_nat dsIndex = Some (Some value)
          ∧ PrimFloat.is_nan value = false
          ∧ pt = [PrimFloat.mul (float64_of_int multiplier) value;
                  PrimFloat.mul
                    (float64_of_int
                       (Unix (d_Start fetch + Z.of_nat i * d_Step fetch))) 1000].
Proof.
  intros Hds. eexists. split.
  { apply project_spec; [done |]. simpl. unfold daemon_points. by rewrite length_fmap. }
  simpl. intros pt. rewrite list_elem_of_join. split.
  - intros (l & Hpt & (i & prow & -> & Hrow)%elem_of_lookup_imap).
    apply lookup_take_Some in Hrow as [Hrow Hi].
    unfold daemon_points in Hrow. rewrite list_lookup_fmap in Hrow.
    destruct (d_Rows fetch !! i) as [row|] eqn:Hr; [| done].
    injection Hrow as <-. unfold row_point in Hpt.
    rewrite list_lookup_fmap in Hpt.
    destruct (row !! Z.to_nat dsIndex) as [[value|]|] eqn:Hv; simpl in Hpt.
    + destruct (PrimFloat.is_nan value) eqn:Hnan; [by apply elem_of_nil in Hpt |].
      apply list_elem_of_singleton in Hpt as ->.
      exists i, row, value. split_and!; [lia | done..].
    + by apply elem_of_nil in Hpt.
    + by apply elem_of_nil in Hpt.
  - intros (i & row & value & Hi & Hrow & Hv & Hnan & ->).
    eexists. split.
    + apply list_elem_of_singleton. reflexivity.
    + apply elem_of_lookup_imap. exists i, ((fun val => default PrimFloat.nan val) <$> row).
      split.
      * unfold row_point. rewrite list_lookup_fmap, Hv. simpl. by rewrite Hnan.
      * apply lookup_take_Some. split; [| lia].
        unfold daemon_points. by rewrite list_lookup_fmap, Hrow.
Qed.

Lemma daemon_missing_samples_dropped_witness :
  0 <= 0
  ∧ ∃ out,
      project (mkFetchData (daemon_points (d_Rows fetch3)) (d_Names fetch3)
                 (d_Start fetch3) (d_Step fetch3) (Z.of_nat (length (d_Rows fetch3))))
        0 10
      = Some out
      ∧ ∀ pt, pt ∈ out ↔
          ∃ (i : nat) (row : list (option float)) (value : float),
            (S i < length (d_Rows fetch3))%nat
            ∧ d_Rows fetch3 !! i = Some row
            ∧ row !! Z.to_nat 0 = Some (Some value)
            ∧ PrimFloat.is_nan value = false
            ∧ pt = [PrimFloat.mul (float64_of_int 10) value;
                    PrimFloat.mul
                      (float64_of_int
                         (Unix (d_Start fetch3 + Z.of_nat i * d_Step fetch3))) 1000].
Proof.
  split; [lia |]. apply (daemon_missing_samples_dropped fetch3 0 10). lia.
Defined.

End FetcherExtras.

(** ** More about [SearchCache.Update] *)
Module CacheExtras.
Import SpecMore Spec GoStrings GoStringsFacts GoTime Backend Cache Hoare Scenarios CacheFacts.

#[local] Arguments str : simpl never.
#[local] Arguments HasPrefix : simpl never.
#[local] Arguments HasSuffix : simpl never.
#[local] Arguments TrimPrefix : simpl never.
#[local] Arguments TrimSuffix : simpl never.
#[local] Arguments Contains : simpl never.
#[local] Arguments fName_of : simpl never.

Lemma HasSuffix_spec (s p : gostring) : HasSuffix s p = true ↔ ∃ q, s = q ++ p.
Proof.
  split; [| intros [q ->]; apply HasSuffix_app].
  unfold HasSuffix. rewrite andb_true_iff, bool_decide_eq_true.
  intros [_ Hdrop]. exists (take (length s - length p) s).
  rewrite <- Hdrop at 2. by rewrite take_drop.
Qed.

Lemma TrimSuffix_app (q p : gostring) : TrimSuffix (q ++ p) p = q.
Proof.
  unfold TrimSuffix. rewrite HasSuffix_app, length_app.
  replace (length q + length p - length p)%nat with (length q) by lia.
  apply take_app_length.
Qed.

(** A key that starts with [ds[] and ends with [].index] is [ds[name].index]. *)
Lemma ds_index_key (key : gostring) :
  HasPrefix key (str "ds[") = true →
  HasSuffix key (str "].index") = true →
  ∃ name, key = str "ds[" ++ name ++ str "].index"
          ∧ TrimSuffix (TrimPrefix key (str "ds[")) (str "].index") = name.
Proof.
  intros [r ->]%HasPrefix_spec [q Hq]%HasSuffix_spec.
  rewrite TrimPrefix_app.
  destruct q as [|a [|b [|c q]]]; try discriminate.
  injection Hq as _ _ _ ->. exists q. by rewrite TrimSuffix_app.
Qed.

Lemma daemon_dsIndex_fold (infoRes : list InfoLine) (acc : gset gostring) (d : gostring) :
  d ∈ fold_left
        (fun dsIndex info =>
           if HasPrefix (Key info) (str "ds[") && HasSuffix (Key info) (str "].index")
           then {[ TrimSuffix (TrimPrefix (Key info) (str "ds[")) (str "].index") ]}
                ∪ dsIndex
           else dsIndex)
        infoRes acc
  ↔ d ∈ acc ∨ ∃ info, info ∈ infoRes ∧ Key info = str "ds[" ++ d ++ str "].index".
Proof.
  revert acc. induction infoRes as [|info rest IH]; intros acc; cbn [fold_left].
  - split; [by left |]. intros [?|(? & ?%elem_of_nil & _)]; done.
  - rewrite IH. clear IH.
    destruct (HasPrefix (Key info) (str "ds[")) eqn:Hp;
      [destruct (HasSuffix (Key info) (str "].index")) eqn:Hs |]; cbn [andb].
    + destruct (ds_index_key _ Hp Hs) as (name & Hkey & ->).
      rewrite elem_of_union, elem_of_singleton. split.
      * intros [[->|?]|(i & ? & ?)]; [| by left |].
        -- right. exists info. split; [left | done].
        -- right. exists i. split; [by right | done].
      * intros [?|(i & [->|?]%elem_of_cons & Hi)]; [by left; right | |].
        -- left; left. rewrite Hkey in Hi.
           by apply app_inv_head, app_inv_tail in Hi.
        -- right. by exists i.
    + split.
      * intros [?|(i & ? & ?)]; [by left |]. right. exists i. split; [by right | done].
      * intros [?|(i & [->|?]%elem_of_cons & Hi)]; [by left | | right; by exists i].
        rewrite Hi, app_assoc, HasSuffix_app in Hs. done.
    + split.
      * intros [?|(i & ? & ?)]; [by left |]. right. exists i. split; [by right | done].
      * intros [?|(i & [->|?]%elem_of_cons & Hi)]; [by left | | right; by exists i].
        rewrite Hi, HasPrefix_app in Hp. done.
Qed.

(** X15. From the daemon's Info answer the index takes exactly the names
    [d] for which a line with the key [ds[d].index] is present. *)
Theorem daemon_datasource_names (infoRes : list InfoLine) (d : gostring) :
  d ∈ daemon_dsIndex infoRes ↔
  ∃ info, info ∈ infoRes ∧ Key info = str "ds[" ++ d ++ str "].index".
Proof.
  unfold daemon_dsIndex. rewrite daemon_dsIndex_fold. set_solver.
Qed.

Section Local.
Context `{Externals}.

Lemma walkFn_local (newItems : list gostring) (v : Visit) (w : World) :
  rrdcachedClient w = None →
  wp (walkFn newItems v)
     (fun r w' =>
        rrdcachedClient w' = None ∧ trace w' = trace w
        ∧ r.2 = v_err v
        ∧ (∀ item, item ∈ newItems → item ∈ r.1)
        ∧ (v_err v = None → v_isDir v = false →
           Contains (v_name v) (str ".rrd") = true →
           ∀ info, (rrd_Info (v_path v) (ext w)).1 = inl info →
                   ∀ item, item ∈ entries_of v info → item ∈ r.1))
     (fun _ => False) w.
Proof.
  intros Hc. unfold walkFn.
  destruct (v_err v) as [err|]; [by wp_step |].
  destruct (v_isDir v) eqn:Hdir; cbn [orb]; [by wp_step |].
  destruct (Contains (v_name v) (str ".rrd")) eqn:Hname; cbn [negb]; [| by wp_step].
  wp_step. wp_step. rewrite Hc. repeat wp_step.
  destruct a as [infoRes|err]; wp_step; simpl.
  - split_and!; [done | done | done | set_solver |].
    intros _ _ _ info Hinfo item Hitem.
    rewrite H0 in Hinfo. simpl in Hinfo. injection Hinfo as <-.
    apply elem_of_app. by right.
  - split_and!; [done | done | done | done |].
    intros _ _ _ info Hinfo. rewrite H0 in Hinfo. discriminate.
Qed.

Lemma walk_local (visits : list Visit) (newItems : list gostring) (w : World) :
  rrdcachedClient w = None →
  wp (walk visits newItems)
     (fun r w' =>
        rrdcachedClient w' = None ∧ trace w' = trace w
        ∧ (Forall (fun v => v_err v = None) visits → r.2 = None)
        ∧ (∀ item, item ∈ newItems → item ∈ r.1)
        ∧ (r.2 = None →
           ∀ v info, v ∈ visits → v_isDir v = false →
                     Contains (v_name v) (str ".rrd") = true →
                     (∀ x, (rrd_Info (v_path v) x).1 = inl info) →
                     ∀ item, item ∈ entries_of v info → item ∈ r.1))
     (fun _ => False) w.
Proof.
  revert newItems w. induction visits as [|v visits IH]; intros newItems w Hc; simpl.
  - wp_step. split_and!; [done | done | done | done |].
    by intros _ v info ?%elem_of_nil.
  - wp_step. eapply wp_mono; [by apply walkFn_local | | done].
    intros [items1 e1] w1 (Hc1 & Ht1 & He1 & Hkeep1 & Hadd1). simpl in *.
    destruct e1 as [err|].
    + wp_step. simpl. split_and!; [done | done | | done | done].
      intros [Hv _]%Forall_cons. congruence.
    + eapply wp_mono; [by apply IH | | done].
      intros [items2 e2] w2 (Hc2 & Ht2 & Hok2 & Hkeep2 & Hadd2). simpl in *.
      split_and!; [done | congruence | | by auto |].
      * intros [_ Hall]%Forall_cons. by apply Hok2.
      * intros -> v' info [->|Hin]%elem_of_cons Hdir Hname Hinfo item Hitem.
        -- apply Hkeep2. by apply (Hadd1 (eq_sym He1) Hdir Hname info (Hinfo _)).
        -- by apply (Hadd2 eq_refl v' info).
Qed.

End Local.

(** X16. With direct file access, a refresh over a tree whose walk does not
    fail leaves nothing out: for every visited file whose name contains
    [.rrd] and whose Info succeeds, the new snapshot holds an entry for each
    of its datasources.  The refresh logs nothing to the trace and leaves
    the daemon client unset. *)
Theorem snapshot_has_every_datasource `{Externals} (w : World) (v : Visit)
    (info : LocalInfo) (ds : gostring) :
  rrdcachedClient w = None →
  Forall (fun v => v_err v = None) (filepath_Walk walk_root (ext w)) →
  v ∈ filepath_Walk walk_root (ext w) →
  v_isDir v = false →
  Contains (v_name v) (str ".rrd") = true →
  (∀ x, (rrd_Info (v_path v) x).1 = inl info) →
  is_Some (ds_index info !! ds) →
  ∃ w', Update w = Ok tt w'
        ∧ fName_of (filepath_Rel (RrdPath config) (v_path v)) ++ str ":" ++ ds
          ∈ searchCache_items w'
        ∧ rrdcachedClient w' = None
        ∧ trace w' = trace w.
Proof.
  intros Hc Hok Hv Hdir Hname Hinfo Hds.
  assert (wp Update
            (fun _ w' =>
               fName_of (filepath_Rel (RrdPath config) (v_path v)) ++ str ":" ++ ds
               ∈ searchCache_items w'
               ∧ rrdcachedClient w' = None ∧ trace w' = trace w)
            (fun _ => False) w) as Hwp.
  { unfold Update. repeat wp_step.
    eapply wp_mono; [by apply walk_local | | done].
    intros [items e] w1 (Hc1 & Ht1 & He & _ & Hadd). simpl in *.
    rewrite (He Hok) in *. wp_step. simpl. split_and!; [| done | done].
    apply (Hadd eq_refl v info Hv Hdir Hname Hinfo).
    unfold entries_of. apply list_elem_of_fmap. exists ds. split; [done |].
    by apply elem_of_elements, elem_of_dom. }
  unfold wp in Hwp. destruct (Update w) as [[] w'|]; [by exists w' | done].
Qed.

Lemma snapshot_has_every_datasource_witness :
  ∃ w', @Update plain_tree (world0 plain_tree None 0%nat) = Ok tt w'
        ∧ @fName_of (@filepath_Rel plain_tree (RrdPath (@config plain_tree))
                       (str "/rrd/host1/cpu.rrd")) ++ str ":" ++ str "used"
          ∈ searchCache_items w'
        ∧ rrdcachedClient w' = None
        ∧ trace w' = [].
Proof.
  apply (@snapshot_has_every_datasource plain_tree (world0 plain_tree None 0%nat)
           (mkVisit (str "/rrd/host1/cpu.rrd") (str "cpu.rrd") false None)
           (info_of 50) (str "used")).
  - reflexivity.
  - repeat constructor.
  - do 2 right. left.
  - reflexivity.
  - reflexivity.
  - intros x. reflexivity.
  - by eexists.
Defined.

Lemma TrimRight_slash (s cutset : gostring) (c : ascii) :
  c ∈ cutset → TrimRight (s ++ [c]) cutset = TrimRight s cutset.
Proof.
  intros Hc. induction s as [|a s IH]; simpl.
  - by rewrite bool_decide_eq_true_2.
  - by rewrite IH.
Qed.

Lemma TrimRight_end (s cutset q : gostring) (c : ascii) :
  TrimRight s cutset = q ++ [c] → c ∉ cutset.
Proof.
  revert q. induction s as [|a s IH]; intros q; simpl.
  - by destruct q.
  - destruct (TrimRight s cutset) as [|b t] eqn:Ht.
    + case_bool_decide; [by destruct q |].
      destruct q as [|? [|]]; intros [=]; by subst.
    + destruct q as [|a' q]; [by destruct t |].
      intros [= -> Hq]. by apply (IH q).
Qed.

(** X17. The root that the index walks never ends in two slashes, is the
    same whether or not the configured path carries one more trailing
    slash, and is the start of every pattern that [query] globs. *)
Theorem walk_root_normalised (E E' : Externals) (target pattern : gostring) :
  HasSuffix (@walk_root E) (str "//") = false
  ∧ (RrdPath (@config E') = RrdPath (@config E) ++ str "/" →
     @walk_root E' = @walk_root E)
  ∧ (@Query.fileSearchPath E target = Some pattern →
     HasPrefix pattern (@walk_root E) = true).
Proof.
  split_and!.
  - destruct (HasSuffix walk_root (str "//")) eqn:Hs; [| done].
    apply HasSuffix_spec in Hs as [q Hq]. unfold walk_root in Hq.
    change (str "//") with (str "/" ++ str "/") in Hq.
    rewrite app_assoc in Hq. apply app_inv_tail in Hq.
    apply TrimRight_end in Hq. destruct Hq. by left.
  - intros Hpath. unfold walk_root. rewrite Hpath.
    by rewrite (TrimRight_slash _ (str "/") "/"%char) by (by left).
  - unfold Query.fileSearchPath.
    destruct (regexp_Compile _) as [re|]; [| done].
    intros [= Hp]. rewrite <- Hp. apply HasPrefix_spec. eexists.
    unfold walk_root. by rewrite <- app_assoc.
Qed.

Lemma walk_root_normalised_witness :
  RrdPath (@config slash_tree) = RrdPath (@config plain_tree) ++ str "/"
  ∧ @walk_root slash_tree = @walk_root plain_tree
  ∧ @Query.fileSearchPath plain_tree (str "*:used") = Some (str "/rrd/*.rrd")
  ∧ HasPrefix (str "/rrd/*.rrd") (@walk_root plain_tree) = true.
Proof.
  pose proof (walk_root_normalised plain_tree slash_tree (str "*:used") (str "/rrd/*.rrd"))
    as (_ & Hsame & Hunder).
  split; [reflexivity |]. split; [apply Hsame; reflexivity |].
  split; [reflexivity |]. apply Hunder. reflexivity.
Defined.

End CacheExtras.

(** ** More about a whole [query] *)
Module QueryRunExtras.
Import SpecMore Spec GoStrings GoTime Backend Fetcher Query Hoare FetcherFacts QueryFacts Scenarios.

#[local] Arguments str : simpl never.
#[local] Arguments wrap64 : simpl never.
#[local] Arguments Z.mul : simpl never.

Lemma clamp_bounds (from to0 t lastUpdate : Time) :
  t <= to0 → (from < to0 → from < t) →
  clamp from t lastUpdate <= to0 ∧ (from < to0 → from < clamp from t lastUpdate).
Proof.
  intros Hle Hlt. unfold clamp, After.
  destruct (Z.ltb_spec lastUpdate t), (Z.ltb_spec from lastUpdate); simpl; lia.
Qed.

Lemma replay_bounds (from to0 t : Time) (evs : list Event) :
  is_Some (clamp_replay from t evs) →
  t <= to0 → (from < to0 → from < t) →
  ∀ path s e, EvFetchRRDData path s e ∈ evs →
              s = from ∧ e <= to0 ∧ (from < to0 → from < e).
Proof.
  revert t. induction evs as [|ev evs IH]; intros t Hsome Hle Hlt path s e Hin.
  { by apply elem_of_nil in Hin. }
  apply elem_of_cons in Hin as [<-|Hin].
  - simpl in Hsome.
    destruct (Z.eqb_spec s from), (Z.eqb_spec e t); simpl in Hsome;
      try (by destruct Hsome).
    subst. done.
  - destruct ev as [| | | | |p lu|p s' e']; simpl in Hsome;
      try (by eapply (IH t); eauto).
    + destruct (clamp_bounds from to0 t lu Hle Hlt).
      by eapply (IH (clamp from t lu)); eauto.
    + destruct ((s' =? from) && (e' =? t));
        [by eapply (IH t); eauto | by destruct Hsome].
Qed.

(** X18. No fetch of a request reaches outside the requested range: every
    call of [fetchRRDData] starts at the requested [from] and ends at or
    before the requested [to], and when [from] is before [to] it ends after
    [from]. *)
Theorem fetches_stay_in_range `{Externals} (from to : Time)
    (targets : list gostring) (w : World) :
  ∃ evs,
    trace (res_world (query from to targets w)) = trace w ++ evs
    ∧ ∀ path s e, EvFetchRRDData path s e ∈ evs →
                  s = from ∧ e <= to ∧ (from < to → from < e).
Proof.
  assert (wp (query from to targets)
            (fun _ w' => ∃ evs, trace w' = trace w ++ evs
                                ∧ is_Some (clamp_replay from to evs))
            (fun w' => ∃ evs, trace w' = trace w ++ evs
                              ∧ is_Some (clamp_replay from to evs)) w) as Hwp.
  { unfold query. wp_step.
    eapply wp_mono; [apply (foldM_replay _ from), query_target_replay | |].
    - intros st w' (evs & Ht & Hr). wp_step. exists evs. simpl in Hr.
      split; [done |]. by rewrite Hr.
    - done. }
  unfold wp in Hwp.
  destruct (query from to targets w) as [r w'|w']; destruct Hwp as (evs & Ht & Hsome);
    exists evs; (split; [done |]); by apply (replay_bounds from to to).
Qed.

Section Labels.
Context `{Externals}.

Lemma query_file_labelled (ds : gostring) (from : Time)
    (st : Time * list QueryResponse) (filePath : gostring) (w : World) :
  wp (query_file ds from st filePath)
     (fun st' _ => labelled ds [filePath] st st') (fun _ => True) w.
Proof.
  assert (∀ t, labelled ds [filePath] st (t, st.2)) as Hskip.
  { intros t. exists []. split; [by rewrite app_nil_r | apply sublist_nil_l]. }
  unfold query_file. repeat wp_step.
  destruct a as [statErr|]; [wp_step; destruct st; apply Hskip |]. wp_step.
  eapply wp_mono; [apply file_info_events | | done].
  intros [[lastUpdate dsIndex]|] w1 _; [| wp_step; destruct st; apply Hskip].
  repeat wp_step.
  eapply wp_mono; [apply fetchRRDData_events | | done].
  intros [fd|err] w2 _; [| wp_step; apply Hskip].
  repeat wp_step. destruct (project fd _ _) as [pts|]; wp_step; [| done].
  eexists [_]. split; [done |]. simpl. by constructor.
Qed.

Lemma foldM_labelled (ds : gostring) (from : Time) (files : list gostring)
    (st : Time * list QueryResponse) (w : World) :
  wp (foldM (query_file ds from) st files)
     (fun st' _ => labelled ds files st st') (fun _ => True) w.
Proof.
  revert st w. induction files as [|f files IH]; intros st w; simpl.
  - wp_step. exists []. split; [by rewrite app_nil_r | done].
  - wp_step. eapply wp_mono; [apply query_file_labelled | | done].
    intros st1 w1 (sel1 & Hs1 & Hsub1).
    eapply wp_mono; [apply IH | | done].
    intros st2 w2 (sel2 & Hs2 & Hsub2). exists (sel1 ++ sel2). split.
    + by rewrite Hs2, Hs1, app_assoc.
    + rewrite fmap_app.
      change ((fun f0 => extractedTarget f0 ds) <$> f :: files)
        with (((fun f0 => extractedTarget f0 ds) <$> [f])
              ++ ((fun f0 => extractedTarget f0 ds) <$> files)).
      by apply sublist_app.
Qed.

End Labels.

(** X19. The results a target adds are labelled by the files its pattern
    resolved to, not by the pattern: they come in the order of the glob, at
    most one for each file, each with the identifier made from the file's
    path and the target's datasource. *)
Theorem results_labelled_by_file `{Externals} (from : Time)
    (st st' : Time * list QueryResponse) (target pattern : gostring)
    (files : list gostring) (w w' : World) (x : Ext) :
  fileSearchPath target = Some pattern →
  zglob_Glob pattern (ext w) = (files, x) →
  query_target from st target w = Ok st' w' →
  ∃ sel,
    st'.2 = st.2 ++ sel
    ∧ (Target <$> sel)
      `sublist_of` ((fun f => extractedTarget f (target_ds target)) <$> files).
Proof.
  intros Hp Hg Hrun. unfold query_target in Hrun. rewrite Hp in Hrun.
  unfold mbind, M_bind, bind, call in Hrun. rewrite Hg in Hrun.
  pose proof (foldM_labelled (target_ds target) from files st (set_ext w x)) as Hwp.
  unfold wp in Hwp. by rewrite Hrun in Hwp.
Qed.

Lemma results_labelled_by_file_witness :
  ∃ st' w',
    @query_target four_files (time_Unix 0) (time_Unix 100, []) (str "*:used")
      (world0 four_files None 0%nat) = Ok st' w'
    ∧ ∃ sel,
        st'.2 = [] ++ sel
        ∧ (Target <$> sel)
          `sublist_of` ((fun f => @extractedTarget four_files f (target_ds (str "*:used")))
                          <$> [str "/rrd/a.rrd"; str "/rrd/c.rrd"; str "/rrd/d.rrd";
                               str "/rrd/b.rrd"]).
Proof.
  eexists _, _. split; [vm_compute; reflexivity |].
  eapply (@results_labelled_by_file four_files (time_Unix 0) (time_Unix 100, []) _
            (str "*:used") (str "/rrd/*.rrd") _ (world0 four_files None 0%nat) _ 0%nat).
  - reflexivity.
  - reflexivity.
  - vm_compute; reflexivity.
Defined.

End QueryRunExtras.

(** ** [annotations] *)
Module AnnotationsExtras.
Import GoStrings GoTime Annotations Scenarios.

#[local] Arguments str : simpl never.
#[local] Arguments wrap64 : simpl never.
#[local] Arguments Z.mul : simpl never.

Lemma wrap64_small (z : Z) : - 2 ^ 63 <= z < 2 ^ 63 → wrap64 z = z.
Proof.
  intros Hz. unfold wrap64. rewrite Z.mod_small; lia.
Qed.

Lemma annotations_loop_spec (from to : Time) (annots : list AnnotationCSV)
    (result : list AnnotationResponse) :
  annotations_loop from to annots result
  = result
    ++ ((fun a => mkAnnotationResponse (str "annotation") (a_Time a) (a_Title a)
                    (a_Tags a) (a_Text a))
          <$> filter (fun a => in_range from to a = true) annots).
Proof.
  revert result. induction annots as [|a annots IH]; intros result; simpl.
  - by rewrite app_nil_r.
  - rewrite IH, filter_cons. destruct (in_range from to a); simpl.
    + by rewrite <- app_assoc.
    + done.
Qed.

(** X20. For a configured annotations file and a request that decodes, with
    bounds whose seconds times 1000 fit 64 bits, [annotations] answers the
    lines of the file whose time in milliseconds lies between the bounds
    cut down to whole seconds, both ends included, in the order of the file
    and each marked [annotation]. *)
Theorem annotations_selected (method path : gostring) (from to : Time)
    (annots : list AnnotationCSV) :
  method ≠ str "OPTIONS" →
  path ≠ [] →
  - 2 ^ 63 <= Unix from * 1000 < 2 ^ 63 →
  - 2 ^ 63 <= Unix to * 1000 < 2 ^ 63 →
  ∃ result,
    annotations method path (Some (from, to)) annots = Selected result
    ∧ (r_Time <$> result) `sublist_of` (a_Time <$> annots)
    ∧ ∀ r, r ∈ result ↔
        ∃ a, a ∈ annots
             ∧ from `div` Second * 1000 <= a_Time a <= to `div` Second * 1000
             ∧ r = mkAnnotationResponse (str "annotation") (a_Time a) (a_Title a)
                     (a_Tags a) (a_Text a).
Proof.
  intros Hm Hp Hfrom Hto. eexists. split.
  { unfold annotations. rewrite !bool_decide_eq_false_2 by done.
    by rewrite annotations_loop_spec. }
  simpl. split.
  - rewrite <- list_fmap_compose.
    induction annots as [|a annots IH]; [done |].
    rewrite filter_cons. destruct (decide (in_range from to a = true)); simpl.
    + by constructor.
    + by constructor.
  - intros r. rewrite list_elem_of_fmap. setoid_rewrite list_elem_of_filter.
    unfold in_range. rewrite !wrap64_small by done. unfold Unix.
    split.
    + intros (a & -> & [Hle%Z.leb_le Hge%Z.leb_le]%andb_true_iff & Hin).
      exists a. split_and!; done.
    + intros (a & Hin & [Hle Hge] & ->). exists a. split; [done |]. split; [| done].
      apply andb_true_iff. split; by apply Z.leb_le.
Qed.

Lemma annotations_selected_witness :
  str "POST" ≠ str "OPTIONS"
  ∧ str "/etc/annotations.csv" ≠ []
  ∧ ∃ result,
      annotations (str "POST") (str "/etc/annotations.csv")
        (Some (time_Unix 1 + 999999999, time_Unix 5)) sample_annots
      = Selected result
      ∧ (r_Time <$> result) `sublist_of` (a_Time <$> sample_annots)
      ∧ ∀ r, r ∈ result ↔
          ∃ a, a ∈ sample_annots
               ∧ (time_Unix 1 + 999999999) `div` Second * 1000 <= a_Time a
                 <= time_Unix 5 `div` Second * 1000
               ∧ r = mkAnnotationResponse (str "annotation") (a_Time a) (a_Title a)
                       (a_Tags a) (a_Text a).
Proof.
  split; [discriminate |]. split; [discriminate |].
  apply (annotations_selected (str "POST") (str "/etc/annotations.csv")
           (time_Unix 1 + 999999999) (time_Unix 5) sample_annots);
    [discriminate | discriminate | vm_compute; split; [discriminate | reflexivity]
    | vm_compute; split; [discriminate | reflexivity]].
Defined.

(** X21. A range whose end is in an earlier second than its start selects
    nothing; so does an end that does not parse, against any start at or
    after the zero time. *)
Theorem annotations_inverted_range (method path : gostring) (from to : Time)
    (annots : list AnnotationCSV) :
  method ≠ str "OPTIONS" →
  path ≠ [] →
  - 2 ^ 63 <= Unix from * 1000 < 2 ^ 63 →
  - 2 ^ 63 <= Unix to * 1000 < 2 ^ 63 →
  Unix to < Unix from →
  annotations method path (Some (from, to)) annots = Selected [].
Proof.
  intros Hm Hp Hfrom Hto Hinv. unfold annotations.
  rewrite !bool_decide_eq_false_2 by done. rewrite annotations_loop_spec. simpl.
  f_equal. induction annots as [|a annots IH]; [done |].
  rewrite filter_cons, decide_False; [done |].
  unfold in_range. rewrite !wrap64_small by done.
  intros [Hle%Z.leb_le Hge%Z.leb_le]%andb_true_iff. lia.
Qed.

Lemma annotations_inverted_range_witness :
  annotations (str "POST") (str "/etc/annotations.csv")
    (Some (time_Unix 5, zeroTime)) sample_annots
  = Selected [].
Proof.
  apply (annotations_inverted_range (str "POST") (str "/etc/annotations.csv")
           (time_Unix 5) zeroTime sample_annots);
    [discriminate | discriminate | vm_compute; split; [discriminate | reflexivity]
    | vm_compute; split; [discriminate | reflexivity] | vm_compute; reflexivity].
Defined.

End AnnotationsExtras.

(** ** The labels of [query] and the identifiers of the index *)
Module LabelExtras.
Import Spec GoStrings GoStringsFacts GoTime Backend Cache Query Scenarios.

#[local] Arguments str : simpl never.
#[local] Arguments HasPrefix : simpl never.
#[local] Arguments Contains : simpl never.










Example label_with_slash :
  @extractedTarget slash_tree (str "/rrd/host1/cpu.rrd") (str "used")
  = str "host1:cpu:used".
Proof. vm_compute. reflexivity. Qed.

Example label_without_slash :
  @extractedTarget plain_tree (str "/rrd/host1/cpu.rrd") (str "used")
  = str ":host1:cpu:used".
Proof. vm_compute. reflexivity. Qed.

End LabelExtras.
